(** * nest-ndjson-req-stream: the NDJSON line decoder and its adapter

    A shallow embedding of
    [src/services/ndjson-stream-parser.service.ts] ([createParser],
    [parseStream]) and of the parameter decorator
    [src/decorators/ndjson-stream.decorator.ts] ([NdJsonStreamReq]).

    JavaScript strings are sequences of UTF-16 code units, Buffers are
    sequences of bytes.  The two closures of [createParser] share the
    variables [buffer] and [itemCount]; they become a record that
    [transform] and [flush] pass along.  What the closures do to the
    stream object ([this.push], [this.emit]) is returned as a list of
    effects, in program order. *)

From Stdlib Require Import List NArith Lia Bool Arith String Ascii.
From Stdlib.Strings Require Import Byte.
From Stdlib Require Import DecimalString PrimFloat Sorted.
From Stdlib Require DecimalNat.
Import ListNotations.

Set Implicit Arguments.
Set Warnings "-register-all".

(** ** JavaScript strings *)

Module JS.

Abbreviation codeunit := N (only parsing).
Abbreviation jsstring := (list N) (only parsing).

(** An ASCII literal as a JavaScript string. *)
Definition lit (s : string) : jsstring :=
  map (fun a => N_of_ascii a) (list_ascii_of_string s).

Definition LF : codeunit := 10%N.
Definition CR : codeunit := 13%N.

Definition jsstring_eqb (a b : jsstring) : bool :=
  if list_eq_dec N.eq_dec a b then true else false.

(** [s.split('\n')]: the segments between line feeds; never empty, and
    [''.split('\n')] is [['']]. *)
Fixpoint split_nl (s : jsstring) : list jsstring :=
  match s with
  | [] => [[]]
  | c :: s' =>
      if N.eqb c LF then [] :: split_nl s'
      else match split_nl s' with
           | seg :: segs => (c :: seg) :: segs
           | [] => [[c]]
           end
  end.

(** The same split read left to right: the segments a line feed has
    closed, and the text after the last line feed, with [cur] already
    read since the last line feed. *)
Fixpoint scan (cur s : jsstring) : list jsstring * jsstring :=
  match s with
  | [] => ([], cur)
  | c :: s' =>
      if N.eqb c LF then let (ls, t) := scan [] s' in (cur :: ls, t)
      else scan (cur ++ [c]) s'
  end.

Definition complete_lines (s : jsstring) : list jsstring := fst (scan [] s).
Definition rest (s : jsstring) : jsstring := snd (scan [] s).

(** [Array.prototype.pop]: removes and returns the last element,
    [undefined] ([None]) on an empty array. *)
Fixpoint pop {A} (l : list A) : option A * list A :=
  match l with
  | [] => (None, [])
  | [x] => (Some x, [])
  | x :: l' => let (r, rest) := pop l' in (r, x :: rest)
  end.

(** ECMAScript WhiteSpace and LineTerminator code points, the ones
    [String.prototype.trim] strips.  All of them are in the BMP. *)
Definition is_white (c : codeunit) : bool :=
  (N.leb 9 c && N.leb c 13)
  || N.eqb c 32 || N.eqb c 160 || N.eqb c 5760
  || (N.leb 8192 c && N.leb c 8202)
  || N.eqb c 8232 || N.eqb c 8233 || N.eqb c 8239
  || N.eqb c 8287 || N.eqb c 12288 || N.eqb c 65279.

Fixpoint trimStart (s : jsstring) : jsstring :=
  match s with
  | c :: s' => if is_white c then trimStart s' else s
  | [] => []
  end.

Definition trimEnd (s : jsstring) : jsstring := rev (trimStart (rev s)).

Definition trim (s : jsstring) : jsstring := trimEnd (trimStart s).

(** Truthiness of a string: every string but the empty one. *)
Definition truthy (s : jsstring) : bool :=
  match s with [] => false | _ => true end.

(** [`${n}`] for a counter. *)
Definition decimal (n : nat) : jsstring :=
  lit (NilEmpty.string_of_uint (Nat.to_uint n)).

(** *** [Buffer.prototype.toString()]: UTF-8 decoding with replacement

    The decoder of the WHATWG Encoding standard, which Node follows: an
    ill-formed sequence becomes U+FFFD and the byte that broke it is read
    again; input that ends inside a sequence gives one U+FFFD. *)

Record utf8_state := {
  cp : N;            (* code point being assembled *)
  needed : nat;      (* continuation bytes still expected *)
  lower : N;         (* bounds for the next continuation byte *)
  upper : N
}.

Definition utf8_idle := {| cp := 0; needed := 0; lower := 128; upper := 191 |}.

Definition REPLACEMENT : N := 65533%N.

(** A code point as UTF-16 code units. *)
Definition utf16 (c : N) : jsstring :=
  if N.ltb c 65536 then [c]
  else let c' := (c - 65536)%N in
       [(55296 + N.shiftr c' 10)%N; (56320 + N.land c' 1023)%N].

(** A byte read outside a sequence. *)
Definition utf8_lead (b : N) : utf8_state * jsstring :=
  if N.leb b 127 then (utf8_idle, [b])
  else if N.leb 194 b && N.leb b 223 then
    ({| cp := N.land b 31; needed := 1; lower := 128; upper := 191 |}, [])
  else if N.leb 224 b && N.leb b 239 then
    ({| cp := N.land b 15; needed := 2;
        lower := if N.eqb b 224 then 160 else 128;
        upper := if N.eqb b 237 then 159 else 191 |}, [])
  else if N.leb 240 b && N.leb b 244 then
    ({| cp := N.land b 7; needed := 3;
        lower := if N.eqb b 240 then 144 else 128;
        upper := if N.eqb b 244 then 143 else 191 |}, [])
  else (utf8_idle, [REPLACEMENT]).

Definition utf8_step (st : utf8_state) (b : N) : utf8_state * jsstring :=
  match needed st with
  | O => utf8_lead b
  | S k =>
      if N.leb (lower st) b && N.leb b (upper st) then
        let c := N.lor (N.shiftl (cp st) 6) (N.land b 63) in
        match k with
        | O => (utf8_idle, utf16 c)
        | _ => ({| cp := c; needed := k; lower := 128; upper := 191 |}, [])
        end
      else
        let (st', out) := utf8_lead b in (st', REPLACEMENT :: out)
  end.

Fixpoint utf8_decode (st : utf8_state) (bs : list byte) : jsstring :=
  match bs with
  | [] => match needed st with O => [] | _ => [REPLACEMENT] end
  | b :: bs' =>
      let (st', out) := utf8_step st (Byte.to_N b) in
      out ++ utf8_decode st' bs'
  end.

Definition Buffer_toString (bs : list byte) : jsstring := utf8_decode utf8_idle bs.

Definition is_ascii (b : byte) : Prop := (Byte.to_N b <= 127)%N.

(** The state the decoder is left in by the bytes [bs]; [needed] is 0
    there exactly when [bs] does not end inside a multi-byte sequence. *)
Fixpoint utf8_state_after (st : utf8_state) (bs : list byte) : utf8_state :=
  match bs with
  | [] => st
  | b :: bs' => utf8_state_after (fst (utf8_step st (Byte.to_N b))) bs'
  end.

Definition ends_on_character (bs : list byte) : Prop :=
  needed (utf8_state_after utf8_idle bs) = 0.

(** The code units of the decimal digits. *)
Definition digit (c : N) : Prop := (48 <= c <= 57)%N.

(** [String.prototype.includes] with a non-empty needle. *)
Fixpoint startsWith (needle s : jsstring) : bool :=
  match needle, s with
  | [], _ => true
  | _ :: _, [] => false
  | a :: needle', b :: s' => N.eqb a b && startsWith needle' s'
  end.

Fixpoint includes (s needle : jsstring) : bool :=
  startsWith needle s ||
  match s with
  | [] => false
  | _ :: s' => includes s' needle
  end.

(** [String.prototype.toLowerCase] on text whose letters are all ASCII. *)
Definition toLowerCase_ascii (s : jsstring) : jsstring :=
  map (fun c => if N.leb 65 c && N.leb c 90 then (c + 32)%N else c) s.

End JS.
Import JS.

(** ** [JSON.parse]

    The decoder is generic in what [JSON.parse] returns (the section
    variables of [NdJsonStreamParser] below).  This module is the JSON
    grammar of ECMA-404, the one [JSON.parse] accepts, used wherever a
    statement is evaluated on concrete input: a one-pass lexer and a
    stack parser, both structurally recursive on their input.  A value
    is the syntax tree of its text: numbers keep their lexeme and objects
    their members in source order (the JavaScript value is a function of
    this tree). *)

Module JSON.

Inductive value :=
| Null
| Bool (b : bool)
| Number (lexeme : jsstring)
| String (s : jsstring)
| Array (elements : list value)
| Object (members : list (jsstring * value)).

Inductive token :=
| LBRACE | RBRACE | LBRACKET | RBRACKET | COLON | COMMA
| SCALAR (v : value).

Definition ch (a : ascii) : codeunit := N_of_ascii a.
Definition DQUOTE : codeunit := 34%N.
Definition BACKSLASH : codeunit := 92%N.

Definition is_ws (c : codeunit) : bool :=
  N.eqb c 32 || N.eqb c 9 || N.eqb c 10 || N.eqb c 13.

Definition is_digit (c : codeunit) : bool := N.leb 48 c && N.leb c 57.

Definition hex_digit (c : codeunit) : option N :=
  if is_digit c then Some (c - 48)%N
  else if N.leb 97 c && N.leb c 102 then Some (c - 87)%N
  else if N.leb 65 c && N.leb c 70 then Some (c - 55)%N
  else None.

(** Where the lexer is inside a number. *)
Inductive numstate := Minus | Zero | Int | Dot | Frac | Exp | ExpSign | ExpDigits.

Definition accepting (ph : numstate) : bool :=
  match ph with Zero | Int | Frac | ExpDigits => true | _ => false end.

Definition num_step (ph : numstate) (c : codeunit) : option numstate :=
  let e := N.eqb c (ch "e") || N.eqb c (ch "E") in
  match ph with
  | Minus => if N.eqb c (ch "0") then Some Zero
             else if is_digit c then Some Int else None
  | Zero => if N.eqb c (ch ".") then Some Dot else if e then Some Exp else None
  | Int => if is_digit c then Some Int
           else if N.eqb c (ch ".") then Some Dot
           else if e then Some Exp else None
  | Dot => if is_digit c then Some Frac else None
  | Frac => if is_digit c then Some Frac else if e then Some Exp else None
  | Exp => if is_digit c then Some ExpDigits
           else if N.eqb c (ch "+") || N.eqb c (ch "-") then Some ExpSign
           else None
  | ExpSign => if is_digit c then Some ExpDigits else None
  | ExpDigits => if is_digit c then Some ExpDigits else None
  end.

Inductive lexstate :=
| Start
| InWord (expect : jsstring) (v : value)
| InString (acc : jsstring)
| InEscape (acc : jsstring)
| InHex (acc : jsstring) (digits : list N)
| InNumber (ph : numstate) (acc : jsstring).

Definition start (c : codeunit) : option (lexstate * list token) :=
  if is_ws c then Some (Start, [])
  else if N.eqb c (ch "{") then Some (Start, [LBRACE])
  else if N.eqb c (ch "}") then Some (Start, [RBRACE])
  else if N.eqb c (ch "[") then Some (Start, [LBRACKET])
  else if N.eqb c (ch "]") then Some (Start, [RBRACKET])
  else if N.eqb c (ch ":") then Some (Start, [COLON])
  else if N.eqb c (ch ",") then Some (Start, [COMMA])
  else if N.eqb c DQUOTE then Some (InString [], [])
  else if N.eqb c (ch "t") then Some (InWord (lit "rue") (Bool true), [])
  else if N.eqb c (ch "f") then Some (InWord (lit "alse") (Bool false), [])
  else if N.eqb c (ch "n") then Some (InWord (lit "ull") Null, [])
  else if N.eqb c (ch "-") then Some (InNumber Minus [c], [])
  else if N.eqb c (ch "0") then Some (InNumber Zero [c], [])
  else if is_digit c then Some (InNumber Int [c], [])
  else None.

Definition escape (c : codeunit) : option codeunit :=
  if N.eqb c DQUOTE || N.eqb c BACKSLASH || N.eqb c (ch "/") then Some c
  else if N.eqb c (ch "b") then Some 8%N
  else if N.eqb c (ch "f") then Some 12%N
  else if N.eqb c (ch "n") then Some 10%N
  else if N.eqb c (ch "r") then Some 13%N
  else if N.eqb c (ch "t") then Some 9%N
  else None.

Definition lex_step (st : lexstate) (c : codeunit) : option (lexstate * list token) :=
  match st with
  | Start => start c
  | InWord [] _ => None
  | InWord (e :: es) v =>
      if N.eqb c e then
        match es with
        | [] => Some (Start, [SCALAR v])
        | _ => Some (InWord es v, [])
        end
      else None
  | InString acc =>
      if N.eqb c DQUOTE then Some (Start, [SCALAR (String (rev acc))])
      else if N.eqb c BACKSLASH then Some (InEscape acc, [])
      else if N.ltb c 32 then None
      else Some (InString (c :: acc), [])
  | InEscape acc =>
      if N.eqb c (ch "u") then Some (InHex acc [], [])
      else match escape c with
           | Some c' => Some (InString (c' :: acc), [])
           | None => None
           end
  | InHex acc digits =>
      match hex_digit c, digits with
      | Some h, [d1; d2; d3] =>
          Some (InString ((4096 * d1 + 256 * d2 + 16 * d3 + h)%N :: acc), [])
      | Some h, _ => Some (InHex acc (digits ++ [h]), [])
      | None, _ => None
      end
  | InNumber ph acc =>
      match num_step ph c with
      | Some ph' => Some (InNumber ph' (c :: acc), [])
      | None =>
          if accepting ph then
            match start c with
            | Some (st', toks) => Some (st', SCALAR (Number (rev acc)) :: toks)
            | None => None
            end
          else None
      end
  end.

Fixpoint lex (st : lexstate) (s : jsstring) : option (list token) :=
  match s with
  | [] =>
      match st with
      | Start => Some []
      | InNumber ph acc =>
          if accepting ph then Some [SCALAR (Number (rev acc))] else None
      | _ => None
      end
  | c :: s' =>
      match lex_step st c with
      | Some (st', toks) =>
          match lex st' s' with
          | Some more => Some (toks ++ more)
          | None => None
          end
      | None => None
      end
  end.

(** The containers that are open around the token being read. *)
Inductive frame :=
| InArray (done : list value)
| InObject (done : list (jsstring * value)) (key : jsstring).

Inductive pstate :=
| WantValue (stack : list frame)
| FirstElement (stack : list frame)
| FirstKey (stack : list frame)
| WantKey (done : list (jsstring * value)) (stack : list frame)
| WantColon (done : list (jsstring * value)) (key : jsstring) (stack : list frame)
| AfterElement (done : list value) (stack : list frame)
| AfterMember (done : list (jsstring * value)) (stack : list frame)
| Done (v : value).

Definition reduce (v : value) (stack : list frame) : pstate :=
  match stack with
  | [] => Done v
  | InArray done :: stack' => AfterElement (v :: done) stack'
  | InObject done key :: stack' => AfterMember ((key, v) :: done) stack'
  end.

Definition want_value (stack : list frame) (t : token) : option pstate :=
  match t with
  | SCALAR v => Some (reduce v stack)
  | LBRACKET => Some (FirstElement stack)
  | LBRACE => Some (FirstKey stack)
  | _ => None
  end.

Definition parse_step (st : pstate) (t : token) : option pstate :=
  match st, t with
  | WantValue stack, _ => want_value stack t
  | FirstElement stack, RBRACKET => Some (reduce (Array []) stack)
  | FirstElement stack, _ => want_value (InArray [] :: stack) t
  | FirstKey stack, RBRACE => Some (reduce (Object []) stack)
  | FirstKey stack, SCALAR (String k) => Some (WantColon [] k stack)
  | WantKey done stack, SCALAR (String k) => Some (WantColon done k stack)
  | WantColon done k stack, COLON => Some (WantValue (InObject done k :: stack))
  | AfterElement done stack, COMMA => Some (WantValue (InArray done :: stack))
  | AfterElement done stack, RBRACKET => Some (reduce (Array (rev done)) stack)
  | AfterMember done stack, COMMA => Some (WantKey done stack)
  | AfterMember done stack, RBRACE => Some (reduce (Object (rev done)) stack)
  | _, _ => None
  end.

Fixpoint parse_tokens (st : pstate) (ts : list token) : option value :=
  match ts with
  | [] => match st with Done v => Some v | _ => None end
  | t :: ts' =>
      match parse_step st t with
      | Some st' => parse_tokens st' ts'
      | None => None
      end
  end.

(** V8 words the message of its SyntaxError after the offending token;
    the wording is not modelled and nothing below depends on it. *)
Definition SyntaxError_message : jsstring := lit "Unexpected token".

(** [JSON.parse(text)]: the value, or the message of the SyntaxError. *)
Definition parse (text : jsstring) : value + jsstring :=
  match lex Start text with
  | Some ts =>
      match parse_tokens (WantValue []) ts with
      | Some v => inl v
      | None => inr SyntaxError_message
      end
  | None => inr SyntaxError_message
  end.

Definition is_null (v : value) : bool :=
  match v with Null => true | _ => false end.

(** The lexer inside a literal expects letters only. *)
Definition expects_letters (st : lexstate) : Prop :=
  match st with
  | InWord expect _ => ~ In CR expect
  | _ => True
  end.

(** A literal with ['] written for the double quote. *)
Definition text (s : string) : jsstring :=
  map (fun c => if N.eqb c 39 then DQUOTE else c) (lit s).

End JSON.

(** ** [NdJsonStreamParser.createParser] *)

Module NdJsonStreamParser.

(** A chunk handed to [transform]: the Transform is in object mode, so a
    written string arrives as it is, and a piped request arrives as
    Buffers. *)
Inductive Chunk :=
| BufferChunk (bytes : list byte)
| StringChunk (s : jsstring).

Definition toString (chunk : Chunk) : jsstring :=
  match chunk with
  | BufferChunk bytes => Buffer_toString bytes
  | StringChunk s => s
  end.

(** The diagnostic of one record that failed to parse.  The parser
    reports it as the name of an event,
    [`Error occurred parsing stream item ${itemCount}: ${error.message}`]. *)
Record ParseDiagnostic := {
  index : nat;
  message : jsstring
}.

Definition eventName (d : ParseDiagnostic) : jsstring :=
  lit "Error occurred parsing stream item " ++ decimal (index d)
  ++ lit ": " ++ message d.

(** The variables the two closures of [createParser] share. *)
Record Closure := {
  buffer : jsstring;
  itemCount : nat
}.

Definition createParser : Closure := {| buffer := []; itemCount := 0 |}.

Section Parser.

(** The values [JSON.parse] returns, and [JSON.parse] itself: the parsed
    value, or the message of the error it throws. *)
Variable T : Type.
Variable JSON_parse : jsstring -> T + jsstring.

(** What a closure does to the stream: [this.push(v)] and
    [this.emit(eventName d)]. *)
Inductive Effect :=
| push (v : T)
| emit (d : ParseDiagnostic).

(** [try { this.push(JSON.parse(text)) } catch (error) { this.emit(...) }]
    with [itemCount] at [n].  Only [JSON.parse] can throw here: [push]
    reports its own failure through the stream, not by an exception. *)
Definition try_parse (n : nat) (text : jsstring) : list Effect :=
  match JSON_parse text with
  | inl parsed => [push parsed]
  | inr msg => [emit {| index := n; message := msg |}]
  end.

(** [for (const line of lines) { itemCount++; if (line.trim()) {...} }] *)
Fixpoint for_of (n : nat) (lines : list jsstring) : nat * list Effect :=
  match lines with
  | [] => (n, [])
  | line :: rest =>
      let n1 := S n in
      let out := if truthy (trim line) then try_parse n1 line else [] in
      let (n2, outs) := for_of n1 rest in
      (n2, out ++ outs)
  end.

Definition transform (c : Closure) (chunk : Chunk) : Closure * list Effect :=
  let buffer1 := buffer c ++ toString chunk in
  let (last, lines) := pop (split_nl buffer1) in
  let buffer2 :=
    match last with
    | Some l => if truthy l then l else []
    | None => []
    end in
  let (n, out) := for_of (itemCount c) lines in
  ({| buffer := buffer2; itemCount := n |}, out).

Definition flush (c : Closure) : Closure * list Effect :=
  (c, if truthy (trim (buffer c)) then try_parse (itemCount c) (buffer c) else []).

(** [parser.write(chunk)] for every chunk in turn. *)
Fixpoint write (c : Closure) (chunks : list Chunk) : Closure * list Effect :=
  match chunks with
  | [] => (c, [])
  | chunk :: rest =>
      let (c1, out) := transform c chunk in
      let (c2, outs) := write c1 rest in
      (c2, out ++ outs)
  end.

(** The writes followed by [parser.end()], from the closure [c]. *)
Definition finish (c : Closure) (chunks : list Chunk) : Closure * list Effect :=
  let (c1, out) := write c chunks in
  let (c2, out') := flush c1 in
  (c2, out ++ out').

(** A whole session of a fresh parser. *)
Definition decode (chunks : list Chunk) : Closure * list Effect :=
  finish createParser chunks.

Definition values (out : list Effect) : list T :=
  flat_map (fun e => match e with push v => [v] | emit _ => [] end) out.

Definition diagnostics (out : list Effect) : list ParseDiagnostic :=
  flat_map (fun e => match e with push _ => [] | emit d => [d] end) out.

(** *** [parseStream]

    The parser as a stream object: the closure, the readable side of the
    Transform and the array [errors] the listener of [parseStream]
    fills. *)

Variable is_null : T -> bool.

(** The argument a listener receives from an [emit] that passes none. *)
Inductive NoArgument := undefined.

Record Stream := {
  closure : Closure;
  readable : list T;        (* queued for the consumer, oldest first *)
  ended : bool;             (* the readable side has seen EOF *)
  destroyed : bool;         (* destroyed with ERR_STREAM_PUSH_AFTER_EOF *)
  errors : list NoArgument
}.

(** [Readable.prototype.push] in object mode: [null] is the EOF signal
    and queues nothing; a value pushed after EOF is an error that
    destroys the stream; any other value is queued. *)
Definition Readable_push (s : Stream) (v : T) : Stream :=
  if is_null v then
    {| closure := closure s; readable := readable s; ended := true;
       destroyed := destroyed s; errors := errors s |}
  else if ended s then
    {| closure := closure s; readable := readable s; ended := true;
       destroyed := true; errors := errors s |}
  else if destroyed s then s
  else
    {| closure := closure s; readable := readable s ++ [v]; ended := false;
       destroyed := false; errors := errors s |}.

(** [EventEmitter.prototype.emit(name)], no arguments: the one listener
    this code registers is [(error) => errors.push(error)] on
    ['parse-error']. *)
Definition EventEmitter_emit (s : Stream) (name : jsstring) : Stream :=
  if jsstring_eqb name (lit "parse-error") then
    {| closure := closure s; readable := readable s; ended := ended s;
       destroyed := destroyed s; errors := errors s ++ [undefined] |}
  else s.

Definition perform (s : Stream) (e : Effect) : Stream :=
  match e with
  | push v => Readable_push s v
  | emit d => EventEmitter_emit s (eventName d)
  end.

Definition with_closure (s : Stream) (c : Closure) : Stream :=
  {| closure := c; readable := readable s; ended := ended s;
     destroyed := destroyed s; errors := errors s |}.

(** A chunk the piped source writes; a destroyed stream refuses it. *)
Definition Writable_write (s : Stream) (chunk : Chunk) : Stream :=
  if destroyed s then s
  else let (c, out) := transform (closure s) chunk in
       fold_left perform out (with_closure s c).

(** The source ends: [flush] runs, then the Transform ends its readable
    side. *)
Definition Writable_end (s : Stream) : Stream :=
  if destroyed s then s
  else let (c, out) := flush (closure s) in
       let s' := fold_left perform out (with_closure s c) in
       {| closure := closure s'; readable := readable s'; ended := true;
          destroyed := destroyed s'; errors := errors s' |}.

(** What a consumer that iterates the generator to its end sees: the
    items of [for await (const item of parser) yield item], which come
    from the readable queue in order; whether the iteration throws (a
    destroyed stream); and the argument of [console.warn] when it is
    called. *)
Record Iteration := {
  yielded : list T;
  throws : bool;
  warned : option (list NoArgument)
}.

Definition piped (stream : list Chunk) : Stream :=
  Writable_end
    (fold_left Writable_write stream
       {| closure := createParser; readable := []; ended := false;
          destroyed := false; errors := [] |}).

Definition parseStream (stream : list Chunk) : Iteration :=
  let s := piped stream in
  {| yielded := readable s;
     throws := destroyed s;
     warned := if destroyed s then None
               else if Nat.ltb 0 (List.length (errors s)) then Some (errors s)
               else None |}.

(** The values pushed before the first [null]. *)
Fixpoint before_null (vs : list T) : list T :=
  match vs with
  | [] => []
  | v :: vs' => if is_null v then [] else v :: before_null vs'
  end.


(** What one segment of [text.split('\n')] contributes: nothing when it
    is blank, else the value or the message [JSON.parse] gives. *)
Definition segment_value (seg : jsstring) : list T :=
  if truthy (trim seg) then
    match JSON_parse seg with inl v => [v] | inr _ => [] end
  else [].

Definition segment_message (seg : jsstring) : list jsstring :=
  if truthy (trim seg) then
    match JSON_parse seg with inl _ => [] | inr msg => [msg] end
  else [].

(** [JSON.parse] takes a final carriage return for white space: with
    or without it a text parses to the same value, or fails. *)
Definition reads_CR_as_space : Prop :=
  forall s,
    match JSON_parse (s ++ [CR]), JSON_parse s with
    | inl v, inl w => v = w
    | inr _, inr _ => True
    | _, _ => False
    end.

(** The readable side of [s] is what the pushes [vs], in this order,
    leave. *)
Definition tracks (s : Stream) (vs : list T) : Prop :=
  readable s = before_null vs
  /\ ended s = existsb is_null vs
  /\ (destroyed s = true -> ended s = true).

End Parser.

End NdJsonStreamParser.

(** ** The decorator [NdJsonStreamReq] *)

Module Decorator.
Import NdJsonStreamParser.

(** A value that may be [undefined] or [null]. *)
Inductive Nullish (A : Type) :=
| Undefined
| Null
| Val (a : A).
Arguments Undefined {A}.
Arguments Null {A}.
Arguments Val {A} a.

(** [a ?? b] *)
Definition coalesce {A} (a : Nullish A) (b : A) : A :=
  match a with Val x => x | _ => b end.

(** [batchSize?: number]; an object without the field reads as
    [undefined]. *)
Record NdJsonStreamOptions := {
  options_batchSize : Nullish float
}.

(** [data?.batchSize] *)
Definition optional_batchSize (data : Nullish NdJsonStreamOptions) : Nullish float :=
  match data with
  | Val o => options_batchSize o
  | _ => Undefined
  end.

(** The Express request: its content-type header and the chunks it
    streams. *)
Record Request := {
  content_type : option jsstring;
  chunks : list Chunk
}.

Inductive Exception :=
| TypeError                                  (* [undefined.toLowerCase()] *)
| BadRequestException (msg : jsstring).

Section Decorator.

Variable T : Type.
Variable JSON_parse : jsstring -> T + jsstring.
Variable is_null : T -> bool.
(** [String.prototype.toLowerCase] *)
Variable toLowerCase : jsstring -> jsstring.

Record NdJsonStreamRequest := {
  request : Request;
  body : Iteration T;
  batchSize : float
}.

Definition NdJsonStreamReq (data : Nullish NdJsonStreamOptions) (req : Request)
  : NdJsonStreamRequest + Exception :=
  let batchSize := coalesce (optional_batchSize data) 25%float in
  match content_type req with
  | None => inr TypeError
  | Some contentType =>
      if negb (includes (toLowerCase contentType) (lit "application/x-ndjson")) then
        inr (BadRequestException
               (lit "Invalid content-type: " ++ contentType
                ++ lit ". Expected application/x-ndjson"))
      else
        let asyncGenerator := parseStream JSON_parse is_null (chunks req) in
        inl {| request := req; body := asyncGenerator; batchSize := batchSize |}
  end.

End Decorator.

End Decorator.

(** ** Fixtures of the repository's tests *)

Module Fixtures.
Import NdJsonStreamParser.

(** The record [{"id": n}]. *)
Definition id_ (n : string) : JSON.value :=
  JSON.Object [(lit "id", JSON.Number (lit n))].

(** The effects of a parser that is written the strings and ended. *)
Definition run (chunks : list jsstring) : list (Effect JSON.value) :=
  snd (decode JSON.parse (map StringChunk chunks)).

End Fixtures.

(** * Properties *)

(** ** Splitting text at line feeds *)

Module SplitFacts.

Lemma jsstring_eqb_eq a b : jsstring_eqb a b = true <-> a = b.
Proof.
  unfold jsstring_eqb. destruct (list_eq_dec N.eq_dec a b); split; congruence.
Qed.

Lemma split_nl_nonempty s : split_nl s <> [].
Proof.
  destruct s as [|c s]; simpl; [discriminate|].
  destruct (N.eqb c LF); [discriminate|].
  destruct (split_nl s); discriminate.
Qed.

Lemma pop_cons {A} (x : A) l :
  l <> [] -> pop (x :: l) = (fst (pop l), x :: snd (pop l)).
Proof.
  destruct l as [|y l]; [congruence|]. intros _.
  change (pop (x :: y :: l)) with (let (r, rest) := pop (y :: l) in (r, x :: rest)).
  destruct (pop (y :: l)); reflexivity.
Qed.

(** [split] followed by [pop] is the left-to-right scan. *)
Lemma pop_split_scan s cur :
  match split_nl s with
  | seg :: segs => pop ((cur ++ seg) :: segs) = (Some (snd (scan cur s)), fst (scan cur s))
  | [] => False
  end.
Proof.
  revert cur. induction s as [|c s IH]; intros cur; cbn [split_nl scan].
  - now rewrite app_nil_r.
  - destruct (N.eqb c LF).
    + rewrite app_nil_r.
      specialize (IH []). pose proof (split_nl_nonempty s) as Hne.
      rewrite pop_cons by assumption.
      destruct (split_nl s) as [|seg segs]; [contradiction|].
      cbn [app] in IH. rewrite IH. destruct (scan [] s); reflexivity.
    + specialize (IH (cur ++ [c])).
      destruct (split_nl s) as [|seg segs]; [contradiction|].
      rewrite <- app_assoc in IH. exact IH.
Qed.

Lemma pop_split_nl s :
  pop (split_nl s) = (Some (snd (scan [] s)), fst (scan [] s)).
Proof.
  pose proof (pop_split_scan s []) as H.
  destruct (split_nl s); [contradiction|exact H].
Qed.

Lemma scan_app cur a b :
  scan cur (a ++ b) =
  (fst (scan cur a) ++ fst (scan (snd (scan cur a)) b),
   snd (scan (snd (scan cur a)) b)).
Proof.
  revert cur. induction a as [|c a IH]; intros cur; simpl.
  - now destruct (scan cur b).
  - destruct (N.eqb c LF).
    + rewrite (IH []). destruct (scan [] a) as [ls t]; simpl.
      reflexivity.
    + apply IH.
Qed.

Lemma scan_no_LF cur t : ~ In LF t -> scan cur t = ([], cur ++ t).
Proof.
  revert cur. induction t as [|c t IH]; intros cur H; simpl.
  - now rewrite app_nil_r.
  - destruct (N.eqb_spec c LF) as [->|Hc].
    + exfalso. apply H. now left.
    + rewrite IH, <- app_assoc; [reflexivity|].
      intros Hin. apply H. now right.
Qed.

Lemma scan_carry_no_LF cur s : ~ In LF cur -> ~ In LF (snd (scan cur s)).
Proof.
  revert cur. induction s as [|c s IH]; intros cur H; simpl; [assumption|].
  destruct (N.eqb_spec c LF) as [->|Hc].
  - specialize (IH [] (fun x => x)). destruct (scan [] s); exact IH.
  - apply IH. rewrite in_app_iff. intros [?|[?|[]]]; [tauto|congruence].
Qed.

(** Text that continues a carry without line feed is scanned as if the
    carry had just been read. *)
Lemma scan_carry cur s : ~ In LF cur -> scan [] (cur ++ s) = scan cur s.
Proof.
  intros H. rewrite scan_app, (scan_no_LF [] cur H). simpl.
  now destruct (scan cur s).
Qed.

(** The rest of a scan is the end of what was read, and what precedes
    it is empty or ends with a line feed. *)
Lemma scan_suffix cur s :
  exists prefix,
    cur ++ s = prefix ++ snd (scan cur s) /\
    (prefix = [] \/ exists p, prefix = p ++ [LF]).
Proof.
  revert cur. induction s as [|c s IH]; intros cur; simpl.
  - exists []. rewrite app_nil_r. auto.
  - destruct (N.eqb_spec c LF) as [->|Hc].
    + destruct (IH []) as (prefix & Heq & Hp). simpl in Heq.
      destruct (scan [] s) as [ls t]; simpl in *.
      exists (cur ++ LF :: prefix). split.
      * rewrite Heq, <- app_assoc. reflexivity.
      * right. destruct Hp as [->|(p & ->)].
        -- exists cur. reflexivity.
        -- exists (cur ++ LF :: p). now rewrite <- app_assoc.
    + destruct (IH (cur ++ [c])) as (prefix & Heq & Hp).
      exists prefix. rewrite <- app_assoc in Heq. auto.
Qed.

End SplitFacts.

(** ** The decoder reads text, not chunks *)

Module DecoderFacts.
Import SplitFacts NdJsonStreamParser.

(** A line is skipped exactly when all of it is white space. *)
Lemma trimStart_blank s : trimStart s = [] <-> forallb is_white s = true.
Proof.
  induction s as [|c s IH]; simpl; [tauto|].
  destruct (is_white c); simpl; [exact IH|]. split; discriminate.
Qed.

Lemma trimStart_head s c t : trimStart s = c :: t -> is_white c = false.
Proof.
  induction s as [|a s IH]; simpl; [discriminate|].
  destruct (is_white a) eqn:E; [exact IH|]. congruence.
Qed.

Lemma forallb_rev {A} (f : A -> bool) l : forallb f (rev l) = forallb f l.
Proof.
  apply eq_true_iff_eq. rewrite !forallb_forall.
  split; intros H x Hx; apply H; [now apply in_rev in Hx|now apply in_rev].
Qed.

Lemma truthy_trim s : truthy (trim s) = false <-> forallb is_white s = true.
Proof.
  rewrite <- trimStart_blank. unfold trim, trimEnd.
  split.
  - intros H.
    assert (E : trimStart (rev (trimStart s)) = []).
    { destruct (trimStart (rev (trimStart s))) as [|x u] eqn:E; [reflexivity|].
      simpl in H. destruct (rev u ++ [x]) eqn:E'; [|discriminate].
      now destruct (rev u). }
    apply trimStart_blank in E. rewrite forallb_rev in E.
    destruct (trimStart s) as [|c t] eqn:Es; [reflexivity|].
    apply trimStart_head in Es. simpl in E. now rewrite Es in E.
  - intros ->. reflexivity.
Qed.

Section Facts.

Variable T : Type.
Variable JSON_parse : jsstring -> T + jsstring.

Lemma for_of_count n ls :
  fst (for_of JSON_parse n ls) = n + List.length ls.
Proof.
  revert n. induction ls as [|l ls IH]; intros n; simpl; [lia|].
  specialize (IH (S n)). destruct (for_of JSON_parse (S n) ls). simpl in *. lia.
Qed.

Lemma for_of_app n l1 l2 :
  snd (for_of JSON_parse n (l1 ++ l2)) =
  snd (for_of JSON_parse n l1) ++ snd (for_of JSON_parse (n + List.length l1) l2).
Proof.
  revert n. induction l1 as [|l l1 IH]; intros n; simpl.
  - now rewrite Nat.add_0_r.
  - specialize (IH (S n)).
    destruct (for_of JSON_parse (S n) (l1 ++ l2)), (for_of JSON_parse (S n) l1).
    simpl in *. rewrite IH, <- app_assoc.
    now replace (n + S (List.length l1)) with (S (n + List.length l1)) by lia.
Qed.

(** One [transform] call, by the lines its chunk completes. *)
Lemma transform_scan c chunk :
  transform JSON_parse c chunk =
  ({| buffer := rest (buffer c ++ toString chunk);
      itemCount := itemCount c + List.length (complete_lines (buffer c ++ toString chunk)) |},
   snd (for_of JSON_parse (itemCount c) (complete_lines (buffer c ++ toString chunk)))).
Proof.
  unfold transform, complete_lines, rest. rewrite pop_split_nl.
  pose proof (for_of_count (itemCount c) (fst (scan [] (buffer c ++ toString chunk)))) as Hn.
  destruct (for_of JSON_parse (itemCount c) (fst (scan [] (buffer c ++ toString chunk)))) as [n out].
  simpl in *. subst n. f_equal. f_equal.
  now destruct (snd (scan [] (buffer c ++ toString chunk))).
Qed.

(** All the [transform] calls of a session, by the text they were given:
    how the text was cut into chunks does not show. *)
Lemma write_scan chunks : forall c,
  ~ In LF (buffer c) ->
  write JSON_parse c chunks =
  let text := List.concat (map toString chunks) in
  ({| buffer := snd (scan (buffer c) text);
      itemCount := itemCount c + List.length (fst (scan (buffer c) text)) |},
   snd (for_of JSON_parse (itemCount c) (fst (scan (buffer c) text)))).
Proof.
  induction chunks as [|chunk chunks IH]; intros c Hc; simpl.
  - destruct c; simpl. now rewrite Nat.add_0_r.
  - rewrite transform_scan. unfold complete_lines, rest.
    rewrite (scan_carry (buffer c) (toString chunk) Hc).
    set (c1 := {| buffer := snd (scan (buffer c) (toString chunk)); itemCount := _ |}).
    assert (Hc1 : ~ In LF (buffer c1)) by (now apply scan_carry_no_LF).
    rewrite (IH c1 Hc1). simpl. rewrite scan_app. simpl.
    rewrite length_app, for_of_app. f_equal. f_equal. lia.
Qed.

Lemma write_text chunks :
  write JSON_parse createParser chunks =
  let text := List.concat (map toString chunks) in
  ({| buffer := rest text; itemCount := List.length (complete_lines text) |},
   snd (for_of JSON_parse 0 (complete_lines text))).
Proof.
  rewrite write_scan by (simpl; tauto). reflexivity.
Qed.

Lemma write_carry chunks :
  let c := fst (write JSON_parse createParser chunks) in
  let text := List.concat (map toString chunks) in
  ~ In LF (buffer c)
  /\ (exists prefix,
        text = prefix ++ buffer c /\ (prefix = [] \/ exists p, prefix = p ++ [LF]))
  /\ (~ In LF text -> buffer c = text).
Proof.
  cbv zeta. rewrite write_text. cbn [fst buffer]. unfold rest.
  split; [|split].
  - apply scan_carry_no_LF. simpl. tauto.
  - apply (scan_suffix [] (List.concat (map toString chunks))).
  - intros H. now rewrite scan_no_LF.
Qed.

(** A session is a function of the text it was given. *)
Lemma decode_text chunks :
  decode JSON_parse chunks =
  let text := List.concat (map toString chunks) in
  ({| buffer := rest text; itemCount := List.length (complete_lines text) |},
   snd (for_of JSON_parse 0 (complete_lines text))
   ++ (if truthy (trim (rest text))
       then try_parse JSON_parse (List.length (complete_lines text)) (rest text)
       else [])).
Proof.
  unfold decode, finish. rewrite write_text. reflexivity.
Qed.

Lemma decode_chunking chunks1 chunks2 :
  List.concat (map toString chunks1) = List.concat (map toString chunks2) ->
  decode JSON_parse chunks1 = decode JSON_parse chunks2.
Proof.
  intros H. rewrite !decode_text. simpl. now rewrite H.
Qed.



Lemma finish_scan chunks c :
  ~ In LF (buffer c) ->
  snd (finish JSON_parse c chunks) =
  let text := List.concat (map toString chunks) in
  let lines := fst (scan (buffer c) text) in
  let carry := snd (scan (buffer c) text) in
  snd (for_of JSON_parse (itemCount c) lines)
  ++ (if truthy (trim carry)
      then try_parse JSON_parse (itemCount c + List.length lines) carry
      else []).
Proof.
  intros Hc. unfold finish. rewrite write_scan by assumption. reflexivity.
Qed.

(** Text that is empty or ends with a line feed leaves no carry. *)
Lemma rest_closed pre :
  pre = [] \/ (exists p, pre = p ++ [LF]) -> rest pre = [].
Proof.
  unfold rest. intros [->|(p & ->)]; [reflexivity|].
  rewrite scan_app. reflexivity.
Qed.

(** The lines of a text around one of its lines. *)
Lemma scan_line pre line post :
  pre = [] \/ (exists p, pre = p ++ [LF]) ->
  ~ In LF line ->
  scan [] (pre ++ line ++ LF :: post) =
  (complete_lines pre ++ line :: complete_lines post, rest post).
Proof.
  intros Hpre Hline. rewrite scan_app.
  fold (rest pre). rewrite (rest_closed Hpre).
  rewrite scan_app, (scan_no_LF [] line Hline). simpl.
  unfold complete_lines, rest. now destruct (scan [] post).
Qed.

(** *** The diagnostics of complete lines *)

Lemma diagnostics_app (a b : list (Effect T)) :
  diagnostics (a ++ b) = diagnostics a ++ diagnostics b.
Proof. apply flat_map_app. Qed.

Lemma values_app (a b : list (Effect T)) :
  values (a ++ b) = values a ++ values b.
Proof. apply flat_map_app. Qed.

Lemma for_of_diagnostics ls : forall n,
  let ds := diagnostics (snd (for_of JSON_parse n ls)) in
  Forall (fun d => n < index d) ds
  /\ Sorted.StronglySorted lt (map index ds)
  /\ forall d, In d ds ->
       exists i line,
         nth_error ls i = Some line /\ index d = S (n + i)
         /\ truthy (trim line) = true /\ JSON_parse line = inr (message d).
Proof.
  induction ls as [|l ls IH]; intros n; cbn zeta.
  - simpl. repeat split; try constructor. intros d [].
  - destruct (IH (S n)) as (Hlow & Hsorted & Hnth). cbn [for_of].
    destruct (for_of JSON_parse (S n) ls) as [n' outs]. cbn [snd] in *.
    rewrite diagnostics_app.
    assert (Hlater : forall d, In d (diagnostics outs) ->
              exists i line,
                nth_error (l :: ls) i = Some line /\ index d = S (n + i)
                /\ truthy (trim line) = true /\ JSON_parse line = inr (message d)).
    { intros d Hd. destruct (Hnth d Hd) as (i & line & Hi & Hidx & Hline).
      exists (S i), line. repeat split; try tauto. lia. }
    assert (Hlow' : Forall (fun d => n < index d) (diagnostics outs)).
    { eapply Forall_impl; [|exact Hlow]. simpl. intros; lia. }
    destruct (truthy (trim l)) eqn:Et; [|now repeat split].
    unfold try_parse. destruct (JSON_parse l) as [v|msg] eqn:Ep; [now repeat split|].
    cbn [diagnostics flat_map app map]. repeat split.
    + constructor; [simpl; lia|exact Hlow'].
    + constructor; [exact Hsorted|].
      rewrite Forall_map. exact Hlow.
    + intros d [<-|Hd]; [|now apply Hlater].
      exists 0, l. cbn. repeat split; try assumption. lia.
Qed.

End Facts.

End DecoderFacts.

(** ** Buffers of ASCII text *)

Module BufferFacts.

Lemma utf8_decode_ascii a b :
  Forall is_ascii a ->
  utf8_decode utf8_idle (a ++ b) = map Byte.to_N a ++ utf8_decode utf8_idle b.
Proof.
  induction 1 as [|x a Hx Ha IH]; [reflexivity|].
  cbn [app utf8_decode map]. unfold utf8_step, utf8_lead. cbn [needed utf8_idle].
  apply N.leb_le in Hx. rewrite Hx. cbn [app]. now rewrite IH.
Qed.

Lemma Buffer_toString_app a b :
  Forall is_ascii a ->
  Buffer_toString (a ++ b) = Buffer_toString a ++ Buffer_toString b.
Proof.
  intros Ha. unfold Buffer_toString.
  rewrite (utf8_decode_ascii b Ha).
  rewrite <- (app_nil_r a) at 2. now rewrite (utf8_decode_ascii [] Ha), app_nil_r.
Qed.

Lemma Buffer_toString_concat pieces :
  Forall (Forall is_ascii) pieces ->
  Buffer_toString (List.concat pieces)
  = List.concat (map NdJsonStreamParser.toString (map NdJsonStreamParser.BufferChunk pieces)).
Proof.
  induction 1 as [|a pieces Ha Hp IH]; [reflexivity|].
  cbn [List.concat map NdJsonStreamParser.toString].
  now rewrite Buffer_toString_app, IH.
Qed.

End BufferFacts.

(** ** The stream object *)

Module AdapterFacts.
Import SplitFacts DecoderFacts NdJsonStreamParser.

Section Adapter.

Variable T : Type.
Variable JSON_parse : jsstring -> T + jsstring.
Variable is_null : T -> bool.

Lemma eventName_prefix d :
  startsWith (lit "Error occurred parsing stream item") (eventName d) = true.
Proof. reflexivity. Qed.

Lemma eventName_not_parse_error d : eventName d <> lit "parse-error".
Proof. unfold eventName. cbn. discriminate. Qed.

Lemma perform_errors (s : Stream T) e : errors (perform is_null s e) = errors s.
Proof.
  destruct e as [v|d]; simpl.
  - unfold Readable_push.
    destruct (is_null v), (ended s), (destroyed s); reflexivity.
  - unfold EventEmitter_emit.
    destruct (jsstring_eqb (eventName d) (lit "parse-error")) eqn:E; [|reflexivity].
    apply jsstring_eqb_eq in E. now apply eventName_not_parse_error in E.
Qed.

Lemma fold_perform_errors out : forall s : Stream T,
  errors (fold_left (perform is_null) out s) = errors s.
Proof.
  induction out as [|e out IH]; intros s; simpl; [reflexivity|].
  now rewrite IH, perform_errors.
Qed.

Lemma Writable_write_errors (s : Stream T) chunk :
  errors (Writable_write JSON_parse is_null s chunk) = errors s.
Proof.
  unfold Writable_write. destruct (destroyed s); [reflexivity|].
  destruct (transform JSON_parse (closure s) chunk) as [c out].
  now rewrite fold_perform_errors.
Qed.

Lemma fold_write_errors stream : forall s : Stream T,
  errors (fold_left (Writable_write JSON_parse is_null) stream s) = errors s.
Proof.
  induction stream as [|chunk stream IH]; intros s; simpl; [reflexivity|].
  now rewrite IH, Writable_write_errors.
Qed.

Lemma piped_errors stream : errors (piped JSON_parse is_null stream) = [].
Proof.
  unfold piped, Writable_end.
  match goal with |- context [fold_left _ stream ?s0] =>
    pose proof (fold_write_errors stream s0) as H;
    destruct (fold_left (Writable_write JSON_parse is_null) stream s0) as [c q e d errs]
  end.
  cbn [errors destroyed closure] in *. destruct d; [exact H|].
  destruct (flush JSON_parse c) as [c' out]. cbn [errors].
  rewrite fold_perform_errors. exact H.
Qed.

(** *** What reaches the consumer *)

Lemma before_null_ended vs more :
  existsb is_null vs = true -> before_null is_null (vs ++ more) = before_null is_null vs.
Proof.
  induction vs as [|v vs IH]; simpl; [discriminate|].
  destruct (is_null v); simpl; [reflexivity|]. intros H. now rewrite IH.
Qed.

Lemma before_null_open vs more :
  existsb is_null vs = false ->
  before_null is_null (vs ++ more) = vs ++ before_null is_null more.
Proof.
  induction vs as [|v vs IH]; simpl; [reflexivity|].
  destruct (is_null v); simpl; [discriminate|]. intros H. now rewrite IH.
Qed.

Lemma before_null_all vs :
  existsb is_null vs = false -> before_null is_null vs = vs.
Proof.
  intros H. rewrite <- (app_nil_r vs) at 1.
  rewrite before_null_open by assumption. apply app_nil_r.
Qed.

Lemma tracks_destroyed (s : Stream T) vs more :
  tracks is_null s vs -> destroyed s = true -> tracks is_null s (vs ++ more).
Proof.
  intros (Hr & He & Hd) Hdes. specialize (Hd Hdes).
  rewrite Hd in He. symmetry in He.
  repeat split.
  - now rewrite before_null_ended.
  - rewrite existsb_app, He. exact Hd.
  - now intros _.
Qed.

Lemma tracks_perform (s : Stream T) e vs :
  tracks is_null s vs -> tracks is_null (perform is_null s e) (vs ++ values [e]).
Proof.
  intros (Hr & He & Hd). destruct e as [v|d]; cbn [values flat_map app perform].
  - unfold Readable_push. destruct (is_null v) eqn:Ev.
    + repeat split; cbn [readable ended destroyed].
      * destruct (existsb is_null vs) eqn:Ex.
        -- now rewrite before_null_ended.
        -- rewrite before_null_open by assumption. simpl. rewrite Ev.
           rewrite app_nil_r, Hr. now apply before_null_all.
      * rewrite existsb_app. simpl. rewrite Ev. now rewrite orb_true_r.
    + destruct (ended s) eqn:Ee.
      * symmetry in He. repeat split; cbn [readable ended destroyed].
        -- now rewrite before_null_ended.
        -- rewrite existsb_app, He. reflexivity.
      * destruct (destroyed s) eqn:Ed; [now specialize (Hd eq_refl)|].
        symmetry in He. repeat split; cbn [readable ended destroyed].
        -- rewrite before_null_open by assumption. simpl. rewrite Ev.
           rewrite Hr. now rewrite before_null_all.
        -- rewrite existsb_app, He. simpl. now rewrite Ev.
        -- discriminate.
  - rewrite app_nil_r. unfold EventEmitter_emit.
    destruct (jsstring_eqb (eventName d) (lit "parse-error")) eqn:E; [|now repeat split].
    apply jsstring_eqb_eq in E. now apply eventName_not_parse_error in E.
Qed.

Lemma closure_perform (s : Stream T) e : closure (perform is_null s e) = closure s.
Proof.
  destruct e as [v|d]; simpl.
  - unfold Readable_push. destruct (is_null v), (ended s), (destroyed s); reflexivity.
  - unfold EventEmitter_emit. now destruct (jsstring_eqb _ _).
Qed.

Lemma tracks_fold out : forall (s : Stream T) vs,
  tracks is_null s vs ->
  tracks is_null (fold_left (perform is_null) out s) (vs ++ values out)
  /\ closure (fold_left (perform is_null) out s) = closure s.
Proof.
  induction out as [|e out IH]; intros s vs H; cbn [fold_left].
  - cbn. now rewrite app_nil_r.
  - destruct (IH _ _ (tracks_perform e H)) as (Ht & Hc).
    rewrite Hc, closure_perform. split; [|reflexivity].
    change (e :: out) with ([e] ++ out).
    now rewrite (values_app [e] out), app_assoc.
Qed.

Lemma tracks_write chunks : forall (s : Stream T) c0 vs,
  tracks is_null s vs ->
  (destroyed s = false -> closure s = c0) ->
  let s' := fold_left (Writable_write JSON_parse is_null) chunks s in
  tracks is_null s' (vs ++ values (snd (write JSON_parse c0 chunks)))
  /\ (destroyed s' = false -> closure s' = fst (write JSON_parse c0 chunks)).
Proof.
  induction chunks as [|chunk chunks IH]; intros s c0 vs Ht Hc; cbn zeta.
  - simpl. now rewrite app_nil_r.
  - cbn [fold_left write].
    destruct (destroyed s) eqn:Ed.
    + assert (Hw : Writable_write JSON_parse is_null s chunk = s)
        by (unfold Writable_write; now rewrite Ed).
      rewrite Hw.
      destruct (transform JSON_parse c0 chunk) as [c1 out].
      destruct (IH s c1 (vs ++ values out)) as (Ht' & Hc').
      * now apply tracks_destroyed.
      * congruence.
      * destruct (write JSON_parse c1 chunks) as [c2 outs]. cbn [fst snd] in *.
        now rewrite values_app, app_assoc.
    + assert (Hw : Writable_write JSON_parse is_null s chunk
                   = fold_left (perform is_null) (snd (transform JSON_parse c0 chunk))
                       (with_closure s (fst (transform JSON_parse c0 chunk)))).
      { unfold Writable_write. rewrite Ed, (Hc eq_refl).
        now destruct (transform JSON_parse c0 chunk). }
      rewrite Hw.
      destruct (transform JSON_parse c0 chunk) as [c1 out]. cbn [fst snd].
      destruct (@tracks_fold out (with_closure s c1) vs Ht) as (Ht1 & Hc1).
      destruct (IH _ c1 _ Ht1 (fun _ => Hc1)) as (Ht' & Hc').
      destruct (write JSON_parse c1 chunks) as [c2 outs]. cbn [fst snd] in *.
      now rewrite values_app, app_assoc.
Qed.

Lemma piped_readable stream :
  let vs := values (snd (decode JSON_parse stream)) in
  readable (piped JSON_parse is_null stream) = before_null is_null vs
  /\ (existsb is_null vs = false ->
      destroyed (piped JSON_parse is_null stream) = false).
Proof.
  cbv zeta. unfold piped, decode, finish.
  set (s0 := {| closure := createParser; readable := []; ended := false;
                destroyed := false; errors := [] |}).
  assert (H0 : tracks is_null s0 []) by (repeat split; discriminate).
  destruct (@tracks_write stream s0 createParser [] H0 (fun _ => eq_refl)) as (Ht & Hc).
  cbn [app] in Ht.
  destruct (write JSON_parse createParser stream) as [c out]. cbn [fst snd] in *.
  unfold Writable_end.
  destruct (destroyed (fold_left _ stream s0)) eqn:Ed.
  - destruct (flush JSON_parse c) as [c' out']. cbn [snd].
    rewrite values_app.
    destruct (tracks_destroyed (values out') Ht Ed) as (Hr & He & Hd).
    split; [exact Hr|]. intros Hx. rewrite <- He in Hx.
    rewrite (Hd Ed) in Hx. discriminate.
  - rewrite (Hc eq_refl).
    destruct (flush JSON_parse c) as [c' out']. cbn [snd readable destroyed].
    destruct (@tracks_fold out' (with_closure (fold_left _ stream s0) c') _ Ht)
      as ((Hr & He & Hd) & _).
    rewrite values_app. split; [exact Hr|]. intros Hx.
    destruct (destroyed (fold_left (perform is_null) out' _)) eqn:Ed';
      [|reflexivity].
    rewrite <- He, (Hd eq_refl) in Hx. discriminate.
Qed.

End Adapter.

End AdapterFacts.

(** ** The repository's tests, run on the embedding *)

Module Tests.
Import NdJsonStreamParser Fixtures.

(** 'should handle chunked data across line boundaries' *)
Example chunked_across_line_boundaries :
  run [JSON.text "{'id':1}" ++ [LF] ++ JSON.text "{'i"; JSON.text "d':2}" ++ [LF]]
  = [push (id_ "1"); push (id_ "2")].
Proof. vm_compute. reflexivity. Qed.

(** 'should skip empty lines', 'should skip lines with only whitespace' *)
Example skips_blank_lines :
  run [[LF; LF] ++ JSON.text "{'id':1}" ++ [LF; LF; LF]] = [push (id_ "1")]
  /\ run [lit "   " ++ [LF; 9%N; 9%N; LF] ++ JSON.text "{'id':1}"
          ++ [LF; 32%N; 32%N; 9%N; 32%N; 32%N; LF]] = [push (id_ "1")].
Proof. split; vm_compute; reflexivity. Qed.

(** 'should emit error for invalid JSON': items 1 and 3 *)
Example invalid_lines_are_reported :
  map index (diagnostics (run [lit "invalid json" ++ [LF];
                               JSON.text "{'id':1}" ++ [LF];
                               lit "bad data" ++ [LF]])) = [1; 3]
  /\ values (run [lit "invalid json" ++ [LF];
                  JSON.text "{'id':1}" ++ [LF];
                  lit "bad data" ++ [LF]]) = [id_ "1"].
Proof. split; vm_compute; reflexivity. Qed.

(** 'should maintain correct item count across multiple writes' *)
Example item_count_across_writes :
  map index (diagnostics (run [JSON.text "{'valid': 1}" ++ [LF]; lit "bad" ++ [LF];
                               JSON.text "{'valid': 2}" ++ [LF]; lit "invalid" ++ [LF]]))
  = [2; 4].
Proof. vm_compute. reflexivity. Qed.

(** 'should handle data in flush when no trailing newline',
    'should ignore empty buffer in flush' *)
Example flush_parses_the_carry :
  run [JSON.text "{'id':1}"] = [push (id_ "1")] /\ run [lit "   "] = [] /\ run [] = [].
Proof. repeat split. Qed.

(** 'should parse stream and yield objects', 'should handle empty stream' *)
Example parseStream_yields_objects :
  parseStream JSON.parse JSON.is_null
    [BufferChunk [x7b; x22; x69; x64; x22; x3a; x31; x7d; x0a];
     BufferChunk [x7b; x22; x69; x64; x22; x3a; x32; x7d; x0a]]
  = {| yielded := [id_ "1"; id_ "2"]; throws := false; warned := None |}
  /\ parseStream JSON.parse JSON.is_null []
     = {| yielded := []; throws := false; warned := None |}.
Proof. split; vm_compute; reflexivity. Qed.

End Tests.

(** ** Segments, counts and boundaries *)

Module SegmentFacts.
Import SplitFacts DecoderFacts NdJsonStreamParser.

Lemma scan_count cur s :
  List.length (fst (scan cur s)) = count_occ N.eq_dec s LF.
Proof.
  revert cur. induction s as [|c s IH]; intros cur; [reflexivity|].
  cbn [scan]. destruct (N.eqb_spec c LF) as [->|Hc].
  - rewrite count_occ_cons_eq by reflexivity.
    specialize (IH []). destruct (scan [] s). simpl in *. now rewrite IH.
  - rewrite count_occ_cons_neq by assumption. apply IH.
Qed.

Lemma pop_last {A} (l r : list A) x : pop l = (Some x, r) -> l = r ++ [x].
Proof.
  revert r. induction l as [|a l IH]; intros r; [discriminate|].
  destruct l as [|b l].
  - simpl. intros [= <- <-]. reflexivity.
  - change (pop (a :: b :: l)) with (let (q, t) := pop (b :: l) in (q, a :: t)).
    destruct (pop (b :: l)) as [q t]. intros [= -> <-].
    now rewrite (IH t eq_refl).
Qed.

(** [text.split('\n')] is the complete lines followed by the rest. *)
Lemma split_nl_lines s : split_nl s = complete_lines s ++ [rest s].
Proof. apply pop_last, pop_split_nl. Qed.

Lemma split_nl_In s : forall seg c, In seg (split_nl s) -> In c seg -> In c s.
Proof.
  induction s as [|a s IH]; intros seg c; cbn [split_nl].
  - intros [<-|[]] [].
  - destruct (N.eqb a LF).
    + intros [<-|H] Hc; [destruct Hc|]. right. now apply (IH seg).
    + pose proof (split_nl_nonempty s) as Hne.
      destruct (split_nl s) as [|seg0 segs]; [contradiction|].
      intros [<-|H] Hc.
      * destruct Hc as [<-|Hc]; [now left|]. right. apply (IH seg0); [now left|assumption].
      * right. apply (IH seg); [now right|assumption].
Qed.

Section Facts.

Variable T : Type.
Variable JSON_parse : jsstring -> T + jsstring.

Lemma try_parse_values n seg :
  values (if truthy (trim seg) then try_parse JSON_parse n seg else [])
  = segment_value JSON_parse seg.
Proof.
  unfold segment_value, try_parse.
  destruct (truthy (trim seg)); [|reflexivity]. now destruct (JSON_parse seg).
Qed.

Lemma try_parse_messages n seg :
  map message (diagnostics (if truthy (trim seg) then try_parse JSON_parse n seg else []))
  = segment_message JSON_parse seg.
Proof.
  unfold segment_message, try_parse.
  destruct (truthy (trim seg)); [|reflexivity]. now destruct (JSON_parse seg).
Qed.

Lemma try_parse_length n seg :
  List.length (if truthy (trim seg) then try_parse JSON_parse n seg else [])
  = List.length (filter (fun x => truthy (trim x)) [seg]).
Proof.
  unfold try_parse. cbn [filter].
  destruct (truthy (trim seg)); [|reflexivity]. now destruct (JSON_parse seg).
Qed.

Lemma for_of_values ls : forall n,
  values (snd (for_of JSON_parse n ls)) = flat_map (segment_value JSON_parse) ls.
Proof.
  induction ls as [|l ls IH]; intros n; [reflexivity|].
  cbn [for_of flat_map]. specialize (IH (S n)).
  destruct (for_of JSON_parse (S n) ls) as [n' outs]. cbn [snd] in *.
  now rewrite values_app, try_parse_values, IH.
Qed.

Lemma for_of_messages ls : forall n,
  map message (diagnostics (snd (for_of JSON_parse n ls)))
  = flat_map (segment_message JSON_parse) ls.
Proof.
  induction ls as [|l ls IH]; intros n; [reflexivity|].
  cbn [for_of flat_map]. specialize (IH (S n)).
  destruct (for_of JSON_parse (S n) ls) as [n' outs]. cbn [snd] in *.
  now rewrite diagnostics_app, map_app, try_parse_messages, IH.
Qed.

Lemma for_of_length ls : forall n,
  List.length (snd (for_of JSON_parse n ls))
  = List.length (filter (fun x => truthy (trim x)) ls).
Proof.
  induction ls as [|l ls IH]; intros n; [reflexivity|].
  cbn [for_of]. specialize (IH (S n)).
  destruct (for_of JSON_parse (S n) ls) as [n' outs]. cbn [snd] in *.
  change (l :: ls) with ([l] ++ ls).
  now rewrite length_app, filter_app, length_app, try_parse_length, IH.
Qed.

(** The values, the messages and the number of effects of a session, by
    the segments of its text. *)
Lemma decode_segments chunks :
  let text := List.concat (map toString chunks) in
  let out := snd (decode JSON_parse chunks) in
  values out = flat_map (segment_value JSON_parse) (split_nl text)
  /\ map message (diagnostics out)
     = flat_map (segment_message JSON_parse) (split_nl text)
  /\ List.length out
     = List.length (filter (fun x => truthy (trim x)) (split_nl text)).
Proof.
  cbv zeta. rewrite decode_text. cbv zeta. cbn [snd].
  rewrite split_nl_lines.
  rewrite values_app, diagnostics_app, map_app, !length_app, !flat_map_app, filter_app,
    length_app.
  rewrite for_of_values, for_of_messages, for_of_length.
  rewrite try_parse_values, try_parse_messages, try_parse_length.
  cbn [flat_map]. now rewrite !app_nil_r.
Qed.

End Facts.

Lemma filter_blank s :
  forallb is_white s = true ->
  filter (fun seg => truthy (trim seg)) (split_nl s) = [].
Proof.
  intros Hs.
  assert (H : forall seg, In seg (split_nl s) -> truthy (trim seg) = false).
  { intros seg Hseg. apply truthy_trim, forallb_forall. intros c Hc.
    rewrite forallb_forall in Hs. apply Hs. now apply (split_nl_In s seg). }
  induction (split_nl s) as [|seg segs IH]; [reflexivity|].
  cbn [filter]. rewrite (H seg) by now left. apply IH.
  intros x Hx. apply H. now right.
Qed.

End SegmentFacts.

(** ** When the iteration fails *)

Module ThrowFacts.
Import SplitFacts DecoderFacts AdapterFacts NdJsonStreamParser.

Section Facts.

Variable T : Type.
Variable JSON_parse : jsstring -> T + jsstring.
Variable is_null : T -> bool.







End Facts.

End ThrowFacts.

(** ** Substrings, event names and character boundaries *)

Module TextFacts.
Import NdJsonStreamParser.

Lemma startsWith_spec needle : forall s,
  startsWith needle s = true <-> exists y, s = needle ++ y.
Proof.
  induction needle as [|a needle IH]; intros s; cbn [startsWith app].
  - split; [intros _; now exists s|reflexivity].
  - destruct s as [|b s].
    + split; [discriminate|intros (y & Hy); discriminate].
    + rewrite andb_true_iff, N.eqb_eq, IH. split.
      * intros (-> & y & ->). now exists y.
      * intros (y & [= -> ->]). split; [reflexivity|now exists y].
Qed.

(** [s.includes(needle)] holds exactly when [needle] occurs in [s]. *)
Lemma includes_spec needle : forall s,
  includes s needle = true <-> exists x y, s = x ++ needle ++ y.
Proof.
  induction s as [|b s IH]; cbn [includes]; rewrite orb_true_iff, startsWith_spec.
  - split.
    + intros [(y & Hy)|H]; [|discriminate]. now exists [], y.
    + intros (x & y & H). left. destruct x; [now exists y|discriminate].
  - rewrite IH. split.
    + intros [(y & Hy)|(x & y & ->)]; [now exists [], y|now exists (b :: x), y].
    + intros (x & y & H). destruct x as [|c x].
      * left. now exists y.
      * right. injection H as -> ->. now exists x, y.
Qed.

Lemma lit_inj a b : lit a = lit b -> a = b.
Proof.
  unfold lit. intros H.
  rewrite <- (string_of_list_ascii_of_string a), <- (string_of_list_ascii_of_string b).
  f_equal. revert H. generalize (list_ascii_of_string a) (list_ascii_of_string b).
  induction l as [|x l IH]; intros [|y l']; cbn [map]; try discriminate; [reflexivity|].
  intros [= Hxy Hl]. f_equal; [|now apply IH].
  now rewrite <- (ascii_N_embedding x), <- (ascii_N_embedding y), Hxy.
Qed.

Lemma decimal_digits n : Forall digit (decimal n).
Proof.
  unfold decimal. generalize (Nat.to_uint n).
  induction u; cbn; constructor; try assumption; unfold digit; lia.
Qed.

Lemma decimal_inj n m : decimal n = decimal m -> n = m.
Proof.
  unfold decimal. intros H. apply lit_inj in H.
  assert (Hu : Nat.to_uint n = Nat.to_uint m).
  { pose proof (NilEmpty.usu (Nat.to_uint n)) as Hn.
    pose proof (NilEmpty.usu (Nat.to_uint m)) as Hm.
    rewrite H in Hn. congruence. }
  now rewrite <- (DecimalNat.Unsigned.of_to n), <- (DecimalNat.Unsigned.of_to m), Hu.
Qed.

(** Two texts that begin with digits and go on with something else
    agree only when the digits and the rests agree. *)
Lemma digits_then_rest a : forall b x c y d,
  Forall digit a -> Forall digit b -> ~ digit x -> ~ digit y ->
  a ++ x :: c = b ++ y :: d -> a = b /\ x :: c = y :: d.
Proof.
  induction a as [|p a IH]; intros [|q b] x c y d Ha Hb Hx Hy; cbn [app].
  - intros H. now split.
  - intros [= -> _]. inversion Hb; subst. contradiction.
  - intros [= -> _]. inversion Ha; subst. contradiction.
  - intros [= -> H]. inversion Ha; inversion Hb; subst.
    destruct (IH b x c y d) as (-> & Hrest); auto.
Qed.

Lemma eventName_inj d1 d2 : eventName d1 = eventName d2 -> d1 = d2.
Proof.
  unfold eventName. intros H. apply app_inv_head in H.
  change (lit ": " ++ message d1) with (58%N :: 32%N :: message d1) in H.
  change (lit ": " ++ message d2) with (58%N :: 32%N :: message d2) in H.
  apply digits_then_rest in H; try apply decimal_digits; try (unfold digit; lia).
  destruct H as (Hn & [= Hm]). apply decimal_inj in Hn.
  destruct d1, d2; cbn in *; congruence.
Qed.

(** A byte leaves the decoder either inside a sequence or in its
    initial state. *)
Lemma utf8_step_idle st b :
  needed (fst (utf8_step st b)) = 0 -> fst (utf8_step st b) = utf8_idle.
Proof.
  assert (Hlead : forall x, needed (fst (utf8_lead x)) = 0 -> fst (utf8_lead x) = utf8_idle).
  { intros x. unfold utf8_lead.
    repeat match goal with |- context [if ?c then _ else _] => destruct c end;
      cbn; congruence. }
  unfold utf8_step. destruct (needed st) as [|k]; [apply Hlead|].
  destruct (N.leb (lower st) b && N.leb b (upper st)).
  - destruct k; cbn; congruence.
  - specialize (Hlead b). now destruct (utf8_lead b).
Qed.

Lemma utf8_state_after_idle bs : forall st,
  st = utf8_idle \/ bs <> [] ->
  needed (utf8_state_after st bs) = 0 -> utf8_state_after st bs = utf8_idle.
Proof.
  induction bs as [|b bs IH]; intros st Hst; cbn [utf8_state_after].
  - destruct Hst as [->|H]; [reflexivity|congruence].
  - intros H. destruct bs as [|b' bs].
    + cbn [utf8_state_after] in *. now apply utf8_step_idle.
    + apply IH; [right; discriminate|exact H].
Qed.

Lemma utf8_decode_app a b : forall st,
  needed (utf8_state_after st a) = 0 ->
  utf8_decode st (a ++ b) = utf8_decode st a ++ utf8_decode (utf8_state_after st a) b.
Proof.
  induction a as [|x a IH]; intros st H; cbn [app utf8_decode utf8_state_after] in *.
  - now rewrite H.
  - specialize (IH (fst (utf8_step st (Byte.to_N x))) H).
    destruct (utf8_step st (Byte.to_N x)) as [st' out]. cbn [fst] in *.
    now rewrite IH, app_assoc.
Qed.

Lemma Buffer_toString_boundary a b :
  ends_on_character a ->
  Buffer_toString (a ++ b) = Buffer_toString a ++ Buffer_toString b.
Proof.
  unfold ends_on_character, Buffer_toString. intros H.
  rewrite utf8_decode_app by exact H.
  now rewrite (@utf8_state_after_idle a utf8_idle (or_introl eq_refl) H).
Qed.

Lemma Buffer_toString_pieces pieces :
  Forall ends_on_character pieces ->
  Buffer_toString (List.concat pieces)
  = List.concat (map toString (map BufferChunk pieces)).
Proof.
  induction 1 as [|a pieces Ha Hp IH]; [reflexivity|].
  cbn [List.concat map toString].
  now rewrite Buffer_toString_boundary, IH.
Qed.

End TextFacts.

(** ** Line endings and the byte order mark *)

Module LineEndingFacts.
Import SplitFacts DecoderFacts SegmentFacts NdJsonStreamParser.

Lemma lex_step_expects st c st' toks :
  JSON.expects_letters st -> JSON.lex_step st c = Some (st', toks) -> JSON.expects_letters st'.
Proof.
  assert (Hstart : forall x s t, JSON.start x = Some (s, t) -> JSON.expects_letters s).
  { intros x s t. unfold JSON.start.
    repeat match goal with |- context [if ?b then _ else _] => destruct b end;
      intros [= <- <-]; cbn; try exact I; intros H;
      repeat (destruct H as [H|H]; [discriminate H|]); exact H. }
  destruct st as [|expect v|acc|acc|acc digits|ph acc]; cbn [JSON.lex_step].
  - intros _. apply Hstart.
  - intros Hex. destruct expect as [|e es]; [discriminate|].
    destruct (N.eqb c e); [|discriminate].
    destruct es; intros [= <- <-]; cbn; [exact I|].
    intros H. apply Hex. now right.
  - intros _.
    repeat match goal with |- context [if ?b then _ else _] => destruct b end;
      intros [= <- <-]; exact I.
  - intros _. destruct (N.eqb c (JSON.ch "u")); [intros [= <- <-]; exact I|].
    destruct (JSON.escape c); intros [= <- <-]. exact I.
  - intros _. destruct (JSON.hex_digit c); [|discriminate].
    destruct digits as [|d1 [|d2 [|d3 [|d4 ds]]]]; intros [= <- <-]; exact I.
  - intros _. destruct (JSON.num_step ph c); [intros [= <- <-]; exact I|].
    destruct (JSON.accepting ph); [|discriminate].
    destruct (JSON.start c) as [[s t]|] eqn:E; [|discriminate].
    intros [= <- <-]. now apply (Hstart c s t).
Qed.

Lemma lex_CR s : forall st,
  JSON.expects_letters st -> JSON.lex st (s ++ [CR]) = JSON.lex st s.
Proof.
  induction s as [|c s IH]; intros st Hst; cbn [app JSON.lex].
  - destruct st as [|expect v|acc|acc|acc digits|ph acc]; cbn [JSON.lex_step];
      try reflexivity.
    + destruct expect as [|e es]; [reflexivity|].
      destruct (N.eqb_spec CR e) as [<-|Hne]; [|reflexivity].
      exfalso. apply Hst. now left.
    + destruct ph; reflexivity.
  - destruct (JSON.lex_step st c) as [[st' toks]|] eqn:E; [|reflexivity].
    now rewrite (IH st' (@lex_step_expects st c st' toks Hst E)).
Qed.

(** [JSON.parse] reads a final carriage return as white space. *)
Lemma parse_CR s : JSON.parse (s ++ [CR]) = JSON.parse s.
Proof. unfold JSON.parse. now rewrite lex_CR. Qed.


Lemma truthy_trim_CR l : truthy (trim (l ++ [CR])) = truthy (trim l).
Proof.
  pose proof (truthy_trim (l ++ [CR])) as H1. pose proof (truthy_trim l) as H2.
  rewrite forallb_app in H1. cbn in H1. rewrite andb_true_r in H1.
  destruct (truthy (trim (l ++ [CR]))), (truthy (trim l)); try reflexivity.
  - apply H1, H2. reflexivity.
  - symmetry. apply H2, H1. reflexivity.
Qed.

(** The lines of a text made of lines that each end with [eol] and a
    line feed. *)
Lemma scan_lines_text eol lines :
  ~ In LF eol ->
  Forall (fun l => ~ In LF l) lines ->
  scan [] (flat_map (fun l => l ++ eol ++ [LF]) lines)
  = (map (fun l => l ++ eol) lines, []).
Proof.
  intros Heol. induction 1 as [|l lines Hl Hlines IH]; [reflexivity|].
  cbn [flat_map map].
  replace ((l ++ eol ++ [LF]) ++ flat_map (fun l0 => l0 ++ eol ++ [LF]) lines)
    with ([] ++ (l ++ eol) ++ LF :: flat_map (fun l0 => l0 ++ eol ++ [LF]) lines)
    by (cbn [app]; now rewrite <- !app_assoc).
  rewrite scan_line.
  - unfold complete_lines, rest. now rewrite IH.
  - now left.
  - rewrite in_app_iff. tauto.
Qed.

Section Facts.

Variable T : Type.
Variable JSON_parse : jsstring -> T + jsstring.

Lemma for_of_CR lines : forall n,
  reads_CR_as_space JSON_parse ->
  values (snd (for_of JSON_parse n (map (fun l => l ++ [CR]) lines)))
  = values (snd (for_of JSON_parse n lines))
  /\ map index (diagnostics (snd (for_of JSON_parse n (map (fun l => l ++ [CR]) lines))))
     = map index (diagnostics (snd (for_of JSON_parse n lines))).
Proof.
  induction lines as [|l lines IH]; intros n H; [now split|].
  cbn [map for_of]. destruct (IH (S n) H) as (Hv & Hi).
  destruct (for_of JSON_parse (S n) (map (fun l0 => l0 ++ [CR]) lines)) as [n1 o1].
  destruct (for_of JSON_parse (S n) lines) as [n2 o2]. cbn [snd] in *.
  rewrite !values_app, !diagnostics_app, !map_app, Hv, Hi, truthy_trim_CR.
  destruct (truthy (trim l)); [|now split].
  unfold try_parse. specialize (H l).
  destruct (JSON_parse (l ++ [CR])), (JSON_parse l); try contradiction;
    subst; now split.
Qed.

End Facts.

End LineEndingFacts.

(** * The specification, statement by statement *)

Import SplitFacts DecoderFacts BufferFacts AdapterFacts.
Import NdJsonStreamParser Decorator.

(** C1.  The character U+00E9 inside a JSON string, cut between its two
    UTF-8 bytes: read as one Buffer the record is the string it was
    written as; read as two Buffers, each [chunk.toString()] decodes its
    piece alone and the record becomes a string of two U+FFFD. *)
Theorem C1_character_cut_by_chunks :
  let whole := [x22; xc3; xa9; x22; x0a] in
  let piece1 := [x22; xc3] in
  let piece2 := [xa9; x22; x0a] in
  piece1 ++ piece2 = whole
  /\ values (snd (decode JSON.parse [BufferChunk whole])) = [JSON.String [233%N]]
  /\ values (snd (decode JSON.parse [BufferChunk piece1; BufferChunk piece2]))
     = [JSON.String [65533%N; 65533%N]].
Proof. repeat split. Qed.

(** C2.  [flush] leaves [itemCount] as it found it, and a diagnostic it
    emits carries that count: the number of lines before the trailing
    record, not its 1-based position.  For a malformed record that is
    the whole stream the index is 0. *)
Theorem C2_flush_keeps_itemCount :
  (forall (T : Type) (JSON_parse : jsstring -> T + jsstring) (c : Closure),
      fst (flush JSON_parse c) = c
      /\ forall d, In (emit T d) (snd (flush JSON_parse c)) -> index d = itemCount c)
  /\ diagnostics (snd (decode JSON.parse [StringChunk (lit "invalid json data")]))
     = [{| index := 0; message := JSON.SyntaxError_message |}].
Proof.
  split; [|vm_compute; reflexivity].
  intros T JSON_parse c. split; [reflexivity|].
  unfold flush, try_parse. cbn [snd]. intros d.
  destruct (truthy (trim (buffer c))); [|intros []].
  destruct (JSON_parse (buffer c)); intros [H|[]]; inversion H. reflexivity.
Qed.

(** C3.  Two malformed records, the second without final line feed: both
    diagnostics carry index 1. *)
Theorem C3_trailing_index_repeats :
  map index
    (diagnostics (snd (decode JSON.parse [StringChunk (lit "bad" ++ [LF] ++ lit "bad2")])))
  = [1; 1].
Proof. vm_compute. reflexivity. Qed.

(** C4.  A malformed line, the k-th of the input, whatever the chunks:
    the session's effects are those of a session given only the text
    before the line, then the one diagnostic of the line with index k,
    then those of a parser that has counted k lines and is given the text
    after the line.  With any other line in its place, the effects
    before and after are the same ones. *)
Theorem C4_malformed_line_isolated
  (T : Type) (JSON_parse : jsstring -> T + jsstring)
  (pre bad post msg : jsstring) (chunks : list Chunk) :
  pre = [] \/ (exists p, pre = p ++ [LF]) ->
  ~ In LF bad ->
  forallb is_white bad = false ->
  JSON_parse bad = inr msg ->
  List.concat (map toString chunks) = pre ++ bad ++ LF :: post ->
  let k := S (List.length (complete_lines pre)) in
  let before := snd (decode JSON_parse [StringChunk pre]) in
  let after := snd (finish JSON_parse {| buffer := []; itemCount := k |} [StringChunk post]) in
  snd (decode JSON_parse chunks)
  = before ++ emit T {| index := k; message := msg |} :: after
  /\ forall (line : jsstring) (chunks' : list Chunk),
       ~ In LF line ->
       List.concat (map toString chunks') = pre ++ line ++ LF :: post ->
       snd (decode JSON_parse chunks')
       = before
         ++ (if truthy (trim line) then try_parse JSON_parse k line else [])
         ++ after.
Proof.
  intros Hpre Hbad Hwhite Hparse Htext k before after.
  assert (Hbefore : before = snd (for_of JSON_parse 0 (complete_lines pre))).
  { unfold before. rewrite decode_text. cbn [map toString List.concat snd].
    rewrite app_nil_r, (rest_closed Hpre). cbn. now rewrite app_nil_r. }
  assert (Hafter : after =
            snd (for_of JSON_parse k (complete_lines post))
            ++ (if truthy (trim (rest post))
                then try_parse JSON_parse (k + List.length (complete_lines post)) (rest post)
                else [])).
  { unfold after. rewrite finish_scan by (simpl; tauto).
    cbn [map toString List.concat buffer itemCount]. now rewrite app_nil_r. }
  assert (Hline : forall line chunks',
             ~ In LF line ->
             List.concat (map toString chunks') = pre ++ line ++ LF :: post ->
             snd (decode JSON_parse chunks')
             = before
               ++ (if truthy (trim line) then try_parse JSON_parse k line else [])
               ++ after).
  { intros line chunks' Hline Htext'.
    rewrite decode_text, Htext'. cbv zeta. cbn [snd].
    assert (Hl : complete_lines (pre ++ line ++ LF :: post)
                 = complete_lines pre ++ line :: complete_lines post)
      by (unfold complete_lines at 1; now rewrite scan_line).
    assert (Hr : rest (pre ++ line ++ LF :: post) = rest post)
      by (unfold rest at 1; now rewrite scan_line).
    rewrite Hl, Hr.
    rewrite for_of_app, Hbefore, Hafter, <- !app_assoc. f_equal.
    rewrite Nat.add_0_l. fold k.
    change (line :: complete_lines post) with ([line] ++ complete_lines post).
    rewrite for_of_app, <- app_assoc. cbn [for_of snd List.length].
    fold k. rewrite app_nil_r.
    rewrite length_app. cbn [List.length].
    replace (List.length (complete_lines pre) + 1) with k by (unfold k; lia).
    replace (List.length (complete_lines pre)
             + List.length ([line] ++ complete_lines post))
      with (k + List.length (complete_lines post)) by (unfold k; simpl; lia).
    reflexivity. }
  split; [|exact Hline].
  rewrite (Hline bad chunks Hbad Htext).
  assert (Htruthy : truthy (trim bad) = true).
  { destruct (truthy (trim bad)) eqn:E; [reflexivity|].
    apply truthy_trim in E. congruence. }
  rewrite Htruthy. unfold try_parse. rewrite Hparse. reflexivity.
Qed.

Lemma C4_malformed_line_isolated_witness :
  snd (decode JSON.parse
         [StringChunk (JSON.text "{'id':1}" ++ [LF] ++ lit "ba");
          StringChunk (lit "d" ++ [LF] ++ JSON.text "{'id':2}" ++ [LF])])
  = [push (JSON.Object [(lit "id", JSON.Number (lit "1"))]);
     emit JSON.value {| index := 2; message := JSON.SyntaxError_message |};
     push (JSON.Object [(lit "id", JSON.Number (lit "2"))])].
Proof.
  refine (proj1 (@C4_malformed_line_isolated _ JSON.parse
                   (JSON.text "{'id':1}" ++ [LF]) (lit "bad")
                   (JSON.text "{'id':2}" ++ [LF]) JSON.SyntaxError_message
                   [StringChunk (JSON.text "{'id':1}" ++ [LF] ++ lit "ba");
                    StringChunk (lit "d" ++ [LF] ++ JSON.text "{'id':2}" ++ [LF])]
                   _ _ eq_refl eq_refl eq_refl)).
  - right. exists (JSON.text "{'id':1}"). reflexivity.
  - vm_compute. intros [H|[H|[H|[]]]]; discriminate H.
Defined.

(** C5.  A complete line that is empty or all white space, anywhere among
    the lines a [transform] call completes: [itemCount] advances by one
    for it like for any line (the lines after it are counted from one
    more), and the call's effects are those of the lines before followed
    by those of the lines after, with nothing for the line itself. *)
Theorem C5_blank_line_skipped
  (T : Type) (JSON_parse : jsstring -> T + jsstring)
  (c : Closure) (chunk : Chunk) (before after : list jsstring) (line : jsstring) :
  snd (pop (split_nl (buffer c ++ toString chunk))) = before ++ line :: after ->
  forallb is_white line = true ->
  itemCount (fst (transform JSON_parse c chunk))
  = itemCount c + List.length before + 1 + List.length after
  /\ snd (transform JSON_parse c chunk)
     = snd (for_of JSON_parse (itemCount c) before)
       ++ snd (for_of JSON_parse (itemCount c + List.length before + 1) after).
Proof.
  intros Hlines Hblank. rewrite transform_scan. cbn [fst snd itemCount].
  rewrite pop_split_nl in Hlines. cbn [snd] in Hlines.
  unfold complete_lines. rewrite Hlines. split.
  - rewrite length_app. simpl. lia.
  - rewrite for_of_app. f_equal.
    apply truthy_trim in Hblank. simpl. rewrite Hblank.
    replace (S (itemCount c + List.length before))
      with (itemCount c + List.length before + 1) by lia.
    now destruct (for_of JSON_parse _ after).
Qed.

Lemma C5_blank_line_skipped_witness :
  let chunk :=
    StringChunk (lit "1" ++ [LF] ++ lit "  " ++ [LF] ++ lit "2" ++ [LF]) in
  itemCount (fst (transform JSON.parse createParser chunk)) = 3
  /\ snd (transform JSON.parse createParser chunk)
     = [push (JSON.Number (lit "1")); push (JSON.Number (lit "2"))].
Proof.
  exact (@C5_blank_line_skipped _ JSON.parse createParser
           (StringChunk (lit "1" ++ [LF] ++ lit "  " ++ [LF] ++ lit "2" ++ [LF]))
           [lit "1"] [lit "2"] (lit "  ") eq_refl eq_refl).
Defined.

(** C6.  When a session ends with a carry that is not all white space,
    the text received is some prefix followed by that carry, and the
    effects of the session are those of a session given the prefix alone
    followed by exactly one effect for the carry, made by [flush]: the
    parsed value pushed, or one diagnostic. *)
Theorem C6_trailing_record_once
  (T : Type) (JSON_parse : jsstring -> T + jsstring) (chunks : list Chunk) :
  let c := fst (write JSON_parse createParser chunks) in
  truthy (trim (buffer c)) = true ->
  exists prefix,
    List.concat (map toString chunks) = prefix ++ buffer c
    /\ snd (write JSON_parse createParser chunks)
       = snd (decode JSON_parse [StringChunk prefix])
    /\ snd (flush JSON_parse c)
       = [match JSON_parse (buffer c) with
          | inl v => push v
          | inr msg => emit T {| index := itemCount c; message := msg |}
          end]
    /\ snd (decode JSON_parse chunks)
       = snd (decode JSON_parse [StringChunk prefix]) ++ snd (flush JSON_parse c).
Proof.
  cbv zeta. intros Hcarry.
  destruct (write_carry JSON_parse chunks) as (Hno & (prefix & Htext & Hprefix) & _).
  exists prefix. split; [exact Htext|].
  assert (Hflush : snd (flush JSON_parse (fst (write JSON_parse createParser chunks)))
                   = [match JSON_parse (buffer (fst (write JSON_parse createParser chunks))) with
                      | inl v => push v
                      | inr msg => emit T {| index := itemCount (fst (write JSON_parse createParser chunks));
                                             message := msg |}
                      end]).
  { unfold flush. cbn [snd]. rewrite Hcarry. unfold try_parse.
    now destruct (JSON_parse _). }
  assert (Hwrite : snd (write JSON_parse createParser chunks)
                   = snd (decode JSON_parse [StringChunk prefix])).
  { rewrite decode_text. cbn [map toString List.concat snd]. rewrite app_nil_r.
    rewrite (rest_closed Hprefix). cbn [trim trimStart trimEnd rev truthy].
    rewrite app_nil_r, write_text. cbn [snd]. rewrite Htext.
    unfold complete_lines. rewrite scan_app. fold (rest prefix).
    rewrite (rest_closed Hprefix), (scan_no_LF [] _ Hno).
    cbn [fst]. now rewrite app_nil_r. }
  repeat split; [exact Hwrite|exact Hflush|].
  unfold decode at 1. unfold finish.
  rewrite <- Hwrite.
  destruct (write JSON_parse createParser chunks) as [c out]. cbn [fst snd] in *.
  now destruct (flush JSON_parse c).
Qed.

Lemma C6_trailing_record_once_witness :
  let chunks := [StringChunk (JSON.text "{'id':1}")] in
  let c := fst (write JSON.parse createParser chunks) in
  exists prefix,
    List.concat (map toString chunks) = prefix ++ buffer c
    /\ snd (write JSON.parse createParser chunks)
       = snd (decode JSON.parse [StringChunk prefix])
    /\ snd (flush JSON.parse c)
       = [match JSON.parse (buffer c) with
          | inl v => push v
          | inr msg => emit JSON.value {| index := itemCount c; message := msg |}
          end]
    /\ snd (decode JSON.parse chunks)
       = snd (decode JSON.parse [StringChunk prefix]) ++ snd (flush JSON.parse c).
Proof.
  exact (@C6_trailing_record_once _ JSON.parse
           [StringChunk (JSON.text "{'id':1}")] eq_refl).
Defined.

(** C7.  After any sequence of [transform] calls on a fresh parser, the
    carry [buffer] holds no line feed and is the end of the text received
    so far (the chunks as [toString] read them, concatenated): what
    precedes it is empty or ends with a line feed, so the carry starts
    right after the last line feed, and it is the whole text when that
    has none. *)
Theorem C7_carry_invariant
  (T : Type) (JSON_parse : jsstring -> T + jsstring) (chunks : list Chunk) :
  let c := fst (write JSON_parse createParser chunks) in
  let text := List.concat (map toString chunks) in
  ~ In LF (buffer c)
  /\ (exists prefix,
        text = prefix ++ buffer c /\ (prefix = [] \/ exists p, prefix = p ++ [LF]))
  /\ (~ In LF text -> buffer c = text).
Proof. exact (write_carry JSON_parse chunks). Qed.

(** C8.  A line that holds the JSON value [null], followed by a record:
    both lines parse, and the consumer receives neither value.  The
    [null] goes to [this.push], where it is the end-of-stream signal, and
    the push of the record that follows is an error that destroys the
    stream.  The line [null] alone ends the sequence as well, without
    being delivered. *)
Theorem C8_null_record_ends_the_sequence :
  let input := [StringChunk (lit "null" ++ [LF] ++ JSON.text "{'id':1}" ++ [LF])] in
  values (snd (decode JSON.parse input))
  = [JSON.Null; JSON.Object [(lit "id", JSON.Number (lit "1"))]]
  /\ diagnostics (snd (decode JSON.parse input)) = []
  /\ parseStream JSON.parse JSON.is_null input
     = {| yielded := []; throws := true; warned := None |}
  /\ parseStream JSON.parse JSON.is_null [StringChunk (lit "null" ++ [LF])]
     = {| yielded := []; throws := false; warned := None |}.
Proof. cbv zeta. repeat split; vm_compute; reflexivity. Qed.

(** C9.  When the decorator returns a request: its [batchSize] is 25 for
    options that are [undefined], [null] or without a [batchSize], and is
    the supplied number otherwise; its [body] is [parseStream] applied to
    the request's chunks, which the options do not reach, so any two
    options give the same body. *)
Theorem C9_batchSize_default
  (T : Type) (JSON_parse : jsstring -> T + jsstring) (is_null : T -> bool)
  (toLowerCase : jsstring -> jsstring)
  (data : Nullish NdJsonStreamOptions) (req : Request) (r : NdJsonStreamRequest T) :
  NdJsonStreamReq JSON_parse is_null toLowerCase data req = inl r ->
  (data = Undefined -> batchSize r = 25%float)
  /\ (data = Null -> batchSize r = 25%float)
  /\ (forall o, data = Val o -> options_batchSize o = Undefined ->
                batchSize r = 25%float)
  /\ (forall o n, data = Val o -> options_batchSize o = Val n -> batchSize r = n)
  /\ body r = parseStream JSON_parse is_null (chunks req)
  /\ (forall data' r',
        NdJsonStreamReq JSON_parse is_null toLowerCase data' req = inl r' ->
        body r' = body r).
Proof.
  unfold NdJsonStreamReq. intros H.
  destruct (content_type req) as [contentType|]; [|discriminate].
  destruct (negb (includes (toLowerCase contentType) (lit "application/x-ndjson")));
    [discriminate|].
  injection H as <-. cbn [batchSize body].
  repeat split.
  - now intros ->.
  - now intros ->.
  - intros o -> Ho. simpl. now rewrite Ho.
  - intros o n -> Ho. simpl. now rewrite Ho.
  - intros data' r' H'. injection H' as <-. reflexivity.
Qed.

Lemma C9_batchSize_default_witness :
  let req := {| content_type := Some (lit "Application/X-NDJSON; charset=utf-8");
                chunks := [BufferChunk [x31; x0a]] |} in
  let r := {| request := req;
              body := parseStream JSON.parse JSON.is_null (chunks req);
              batchSize := 50%float |} in
  NdJsonStreamReq JSON.parse JSON.is_null toLowerCase_ascii
    (Val {| options_batchSize := Val 50%float |}) req = inl r
  /\ batchSize r = 50%float
  /\ body r = {| yielded := [JSON.Number (lit "1")]; throws := false; warned := None |}.
Proof.
  cbv zeta. split; [reflexivity|]. split; [|reflexivity].
  refine (proj1 (proj2 (proj2 (proj2
    (@C9_batchSize_default _ JSON.parse JSON.is_null toLowerCase_ascii
       (Val {| options_batchSize := Val 50%float |})
       {| content_type := Some (lit "Application/X-NDJSON; charset=utf-8");
          chunks := [BufferChunk [x31; x0a]] |}
       _ eq_refl)))) _ _ eq_refl eq_refl).
Defined.

(** C10.  Whatever the stream holds, the array [errors] of [parseStream]
    stays empty and [console.warn] is not called: every event the
    parser emits has a name that begins with
    ['Error occurred parsing stream item'], none is ['parse-error'], the
    only event [parseStream] listens to. *)
Theorem C10_parse_error_listener_never_runs
  (T : Type) (JSON_parse : jsstring -> T + jsstring) (is_null : T -> bool)
  (stream : list Chunk) :
  errors (piped JSON_parse is_null stream) = []
  /\ warned (parseStream JSON_parse is_null stream) = None
  /\ forall d : ParseDiagnostic,
       startsWith (lit "Error occurred parsing stream item") (eventName d) = true
       /\ eventName d <> lit "parse-error"
       /\ forall s : Stream T,
            EventEmitter_emit s (eventName d) = s.
Proof.
  split; [apply piped_errors|]. split.
  - unfold parseStream. cbn [warned]. rewrite piped_errors.
    now destruct (destroyed _).
  - intros d. split; [apply eventName_prefix|].
    split; [apply eventName_not_parse_error|].
    intros s. unfold EventEmitter_emit.
    destruct (jsstring_eqb (eventName d) (lit "parse-error")) eqn:E; [|reflexivity].
    apply jsstring_eqb_eq in E. now apply eventName_not_parse_error in E.
Qed.

(** * Further properties of the code *)

(** X1.  A session is a function of the text its chunks decode to: it
    gives the closure and the effects of a session that receives that
    text as one string. *)
Theorem decode_reads_text
  (T : Type) (JSON_parse : jsstring -> T + jsstring) (chunks : list Chunk) :
  decode JSON_parse chunks
  = decode JSON_parse [StringChunk (List.concat (map toString chunks))].
Proof.
  apply decode_chunking. cbn [map toString List.concat]. now rewrite app_nil_r.
Qed.

(** X2.  ASCII bytes cut into Buffers at any place decode like the same
    bytes in one Buffer. *)
Theorem decode_ascii_buffers
  (T : Type) (JSON_parse : jsstring -> T + jsstring) (pieces : list (list byte)) :
  Forall (Forall is_ascii) pieces ->
  decode JSON_parse (map BufferChunk pieces)
  = decode JSON_parse [BufferChunk (List.concat pieces)].
Proof.
  intros H. apply decode_chunking.
  cbn [map toString List.concat]. rewrite app_nil_r.
  symmetry. now apply Buffer_toString_concat.
Qed.

Lemma decode_ascii_buffers_witness :
  decode JSON.parse (map BufferChunk [[x5b; x31]; [x5d]; [x0a; x32]; []; [x0a]])
  = decode JSON.parse [BufferChunk [x5b; x31; x5d; x0a; x32; x0a]].
Proof.
  refine (@decode_ascii_buffers _ JSON.parse [[x5b; x31]; [x5d]; [x0a; x32]; []; [x0a]] _).
  repeat constructor; vm_compute; discriminate.
Defined.

(** X3.  The diagnostics of the [transform] calls of a session have
    strictly increasing indices, and each is that of a line the calls
    completed: the index is the 1-based position of the line among the
    complete lines of the text, the line is not all white space, and the
    message is the one [JSON.parse] failed with on it. *)
Theorem write_diagnostics_increasing
  (T : Type) (JSON_parse : jsstring -> T + jsstring) (chunks : list Chunk) :
  let ds := diagnostics (snd (write JSON_parse createParser chunks)) in
  StronglySorted lt (map index ds)
  /\ forall d, In d ds ->
       exists i line,
         nth_error (complete_lines (List.concat (map toString chunks))) i = Some line
         /\ index d = S i
         /\ truthy (trim line) = true
         /\ JSON_parse line = inr (message d).
Proof.
  cbv zeta. rewrite write_text. cbn [snd].
  destruct (for_of_diagnostics JSON_parse
              (complete_lines (List.concat (map toString chunks))) 0)
    as (_ & Hsorted & Hnth).
  split; [exact Hsorted|exact Hnth].
Qed.


Import SegmentFacts.

(** X5.  [itemCount] counts line feeds: after any sequence of [transform]
    calls on a fresh parser, and after [flush], it is the number of line
    feeds in the text received. *)
Theorem itemCount_counts_line_feeds
  (T : Type) (JSON_parse : jsstring -> T + jsstring) (chunks : list Chunk) :
  let text := List.concat (map toString chunks) in
  itemCount (fst (write JSON_parse createParser chunks)) = count_occ N.eq_dec text LF
  /\ itemCount (fst (decode JSON_parse chunks)) = count_occ N.eq_dec text LF.
Proof.
  cbv zeta. rewrite write_text, decode_text. cbn [fst itemCount].
  unfold complete_lines. now rewrite scan_count.
Qed.

(** X6.  What a session gives is decided segment by segment of
    [text.split('\n')], the text being what the chunks decode to: the
    values pushed are the parse results of the segments that are not
    blank and parse, in order; the messages of the diagnostics are those
    of the segments that are not blank and fail, in order; and there is
    one effect per segment that is not blank, so none is dropped and
    none is reported twice. *)
Theorem decode_by_segments
  (T : Type) (JSON_parse : jsstring -> T + jsstring) (chunks : list Chunk) :
  let text := List.concat (map toString chunks) in
  let out := snd (decode JSON_parse chunks) in
  values out = flat_map (segment_value JSON_parse) (split_nl text)
  /\ map message (diagnostics out)
     = flat_map (segment_message JSON_parse) (split_nl text)
  /\ List.length out
     = List.length (filter (fun seg => truthy (trim seg)) (split_nl text)).
Proof. exact (decode_segments JSON_parse chunks). Qed.

(** X7.  A stream whose text is empty or all white space (line feeds
    included) gives no effect at all, and its consumer receives an empty
    sequence that ends without failure or warning. *)
Theorem blank_stream_is_silent
  (T : Type) (JSON_parse : jsstring -> T + jsstring) (is_null : T -> bool)
  (chunks : list Chunk) :
  forallb is_white (List.concat (map toString chunks)) = true ->
  snd (decode JSON_parse chunks) = []
  /\ parseStream JSON_parse is_null chunks
     = {| yielded := []; throws := false; warned := None |}.
Proof.
  intros Hwhite.
  assert (Hout : snd (decode JSON_parse chunks) = []).
  { apply length_zero_iff_nil.
    destruct (decode_segments JSON_parse chunks) as (_ & _ & ->).
    now rewrite filter_blank. }
  split; [exact Hout|].
  unfold parseStream.
  destruct (piped_readable JSON_parse is_null chunks) as (Hr & Hd).
  rewrite Hout in Hr, Hd. rewrite Hr, (Hd eq_refl), piped_errors. reflexivity.
Qed.

Lemma blank_stream_is_silent_witness :
  snd (decode JSON.parse [StringChunk [32%N; LF]; BufferChunk [x0d; x0a; x09]]) = []
  /\ parseStream JSON.parse JSON.is_null
       [StringChunk [32%N; LF]; BufferChunk [x0d; x0a; x09]]
     = {| yielded := []; throws := false; warned := None |}.
Proof.
  exact (@blank_stream_is_silent _ JSON.parse JSON.is_null
           [StringChunk [32%N; LF]; BufferChunk [x0d; x0a; x09]] eq_refl).
Defined.

(** X8.  A chunk without line feed is only appended to the carry: the
    call pushes nothing, emits nothing and leaves [itemCount] alone,
    whatever the chunk holds and however long the carry already is. *)
Theorem chunk_without_line_feed_is_buffered
  (T : Type) (JSON_parse : jsstring -> T + jsstring)
  (chunks : list Chunk) (chunk : Chunk) :
  let c := fst (write JSON_parse createParser chunks) in
  ~ In LF (toString chunk) ->
  transform JSON_parse c chunk
  = ({| buffer := buffer c ++ toString chunk; itemCount := itemCount c |}, []).
Proof.
  cbv zeta. intros Hchunk.
  destruct (write_carry JSON_parse chunks) as (Hno & _).
  rewrite transform_scan. unfold complete_lines, rest.
  rewrite scan_no_LF.
  - cbn [fst snd List.length for_of app]. now rewrite Nat.add_0_r.
  - rewrite in_app_iff. tauto.
Qed.

Lemma chunk_without_line_feed_is_buffered_witness :
  transform JSON.parse
    (fst (write JSON.parse createParser [StringChunk (lit "1" ++ [LF] ++ lit "[1,")]))
    (BufferChunk [x32; x5d])
  = ({| buffer := lit "[1,2]"; itemCount := 1 |}, []).
Proof.
  refine (@chunk_without_line_feed_is_buffered _ JSON.parse
            [StringChunk (lit "1" ++ [LF] ++ lit "[1,")] (BufferChunk [x32; x5d]) _).
  vm_compute. intros [H|[H|[]]]; discriminate H.
Defined.

Import ThrowFacts.


Import TextFacts.

(** X10.  The decorator and the parser together: when [NdJsonStreamReq]
    returns a request and no segment of the body parses to [null], a
    consumer of [request.body] receives exactly the parse results of the
    segments of the body's text that are not blank and parse, in order,
    and the iteration ends without failure or warning. *)
Theorem request_body_yields_records
  (T : Type) (JSON_parse : jsstring -> T + jsstring) (is_null : T -> bool)
  (toLowerCase : jsstring -> jsstring)
  (data : Nullish NdJsonStreamOptions) (req : Request) (r : NdJsonStreamRequest T) :
  let text := List.concat (map toString (chunks req)) in
  NdJsonStreamReq JSON_parse is_null toLowerCase data req = inl r ->
  (forall seg v, In seg (split_nl text) -> JSON_parse seg = inl v -> is_null v = false) ->
  body r
  = {| yielded := flat_map (segment_value JSON_parse) (split_nl text);
       throws := false;
       warned := None |}.
Proof.
  cbv zeta. unfold NdJsonStreamReq. intros H Hnull.
  destruct (content_type req) as [contentType|]; [|discriminate].
  destruct (negb (includes (toLowerCase contentType) (lit "application/x-ndjson")));
    [discriminate|].
  injection H as <-. cbn [body]. unfold parseStream.
  destruct (piped_readable JSON_parse is_null (chunks req)) as (Hr & Hd).
  destruct (decode_segments JSON_parse (chunks req)) as (Hv & _).
  rewrite Hv in Hr, Hd.
  assert (Hx : existsb is_null
                 (flat_map (segment_value JSON_parse)
                    (split_nl (List.concat (map toString (chunks req))))) = false).
  { destruct (existsb is_null _) eqn:E; [|reflexivity].
    apply existsb_exists in E as (v & Hin & Hv').
    apply in_flat_map in Hin as (seg & Hseg & Hin).
    unfold segment_value in Hin.
    destruct (truthy (trim seg)); [|destruct Hin].
    destruct (JSON_parse seg) as [v0|msg] eqn:Ep; [|destruct Hin].
    destruct Hin as [<-|[]]. rewrite (Hnull seg v0 Hseg Ep) in Hv'. discriminate. }
  rewrite Hr, (Hd Hx), piped_errors, (before_null_all is_null _ Hx). reflexivity.
Qed.

Lemma request_body_yields_records_witness :
  let req := {| content_type := Some (lit "application/x-ndjson");
                chunks := [BufferChunk [x5b; x31; x5d; x0a; x0a]; BufferChunk [x78; x0a; x32]] |} in
  let r := {| request := req;
              body := parseStream JSON.parse JSON.is_null (chunks req);
              batchSize := 25%float |} in
  body r
  = {| yielded := [JSON.Array [JSON.Number (lit "1")]; JSON.Number (lit "2")];
       throws := false;
       warned := None |}.
Proof.
  cbv zeta.
  refine (@request_body_yields_records _ JSON.parse JSON.is_null toLowerCase_ascii
            Undefined
            {| content_type := Some (lit "application/x-ndjson");
               chunks := [BufferChunk [x5b; x31; x5d; x0a; x0a]; BufferChunk [x78; x0a; x32]] |}
            _ eq_refl _).
  intros seg v Hin Hp. vm_compute in Hin.
  destruct Hin as [<-|[<-|[<-|[<-|[]]]]]; vm_compute in Hp;
    first [discriminate Hp | injection Hp as <-; reflexivity].
Defined.

(** X11.  The three outcomes of [NdJsonStreamReq], whatever the options
    and the body: without content-type header it fails with a TypeError
    (not a BadRequestException); with a header whose lower-cased text
    holds [application/x-ndjson] somewhere it returns the request; with
    any other header it throws the BadRequestException whose message
    quotes the header as it was sent. *)
Theorem NdJsonStreamReq_outcome
  (T : Type) (JSON_parse : jsstring -> T + jsstring) (is_null : T -> bool)
  (toLowerCase : jsstring -> jsstring)
  (data : Nullish NdJsonStreamOptions) (req : Request) :
  let result := NdJsonStreamReq JSON_parse is_null toLowerCase data req in
  let occurs ct := exists x y, toLowerCase ct = x ++ lit "application/x-ndjson" ++ y in
  match content_type req with
  | None => result = inr TypeError
  | Some ct =>
      (occurs ct -> exists r, result = inl r /\ request r = req)
      /\ (~ occurs ct ->
          result = inr (BadRequestException
                          (lit "Invalid content-type: " ++ ct
                           ++ lit ". Expected application/x-ndjson")))
  end.
Proof.
  cbv zeta. unfold NdJsonStreamReq.
  destruct (content_type req) as [ct|]; [|reflexivity].
  pose proof (includes_spec (lit "application/x-ndjson") (toLowerCase ct)) as Hspec.
  destruct (includes (toLowerCase ct) (lit "application/x-ndjson")); cbn [negb].
  - split.
    + intros _. eexists. split; reflexivity.
    + intros Hno. exfalso. apply Hno, Hspec. reflexivity.
  - split.
    + intros Hocc. apply Hspec in Hocc. discriminate.
    + reflexivity.
Qed.

(** X12.  The name of the event a parse failure is emitted under
    determines the diagnostic: two diagnostics have the same event name
    only when they have the same index and the same message. *)
Theorem eventName_determines_diagnostic (d1 d2 : ParseDiagnostic) :
  eventName d1 = eventName d2 <-> d1 = d2.
Proof. split; [apply eventName_inj|now intros ->]. Qed.

(** X13.  Buffers that each end on a character boundary (none stops
    inside a multi-byte UTF-8 sequence) decode like the same bytes in one
    Buffer. *)
Theorem decode_buffers_on_character_boundaries
  (T : Type) (JSON_parse : jsstring -> T + jsstring) (pieces : list (list byte)) :
  Forall ends_on_character pieces ->
  decode JSON_parse (map BufferChunk pieces)
  = decode JSON_parse [BufferChunk (List.concat pieces)].
Proof.
  intros H. apply decode_chunking.
  cbn [map toString List.concat]. rewrite app_nil_r.
  symmetry. now apply Buffer_toString_pieces.
Qed.

Lemma decode_buffers_on_character_boundaries_witness :
  decode JSON.parse (map BufferChunk [[x22; xc3; xa9]; [xe2; x82; xac; x22]; [x0a]])
  = decode JSON.parse [BufferChunk [x22; xc3; xa9; xe2; x82; xac; x22; x0a]].
Proof.
  refine (@decode_buffers_on_character_boundaries _ JSON.parse
            [[x22; xc3; xa9]; [xe2; x82; xac; x22]; [x0a]] _).
  repeat constructor.
Defined.

Import LineEndingFacts.

(** X14.  Records that end with carriage return and line feed decode
    like the same records ending with a line feed alone, given that
    [JSON.parse] reads a final carriage return as white space: the same
    values are pushed, the diagnostics carry the same indices, and the
    same number of lines is counted.  The carriage return stays in the
    line: it is [trim] and [JSON.parse] that let it pass. *)
Theorem crlf_records_decode_like_lf
  (T : Type) (JSON_parse : jsstring -> T + jsstring)
  (lines : list jsstring) (crlf lf : list Chunk) :
  reads_CR_as_space JSON_parse ->
  Forall (fun l => ~ In LF l) lines ->
  List.concat (map toString crlf) = flat_map (fun l => l ++ [CR; LF]) lines ->
  List.concat (map toString lf) = flat_map (fun l => l ++ [LF]) lines ->
  values (snd (decode JSON_parse crlf)) = values (snd (decode JSON_parse lf))
  /\ map index (diagnostics (snd (decode JSON_parse crlf)))
     = map index (diagnostics (snd (decode JSON_parse lf)))
  /\ itemCount (fst (decode JSON_parse crlf)) = itemCount (fst (decode JSON_parse lf)).
Proof.
  intros HCR Hlines Hcrlf Hlf. rewrite !decode_text. cbv zeta.
  rewrite Hcrlf, Hlf. unfold complete_lines, rest.
  change (flat_map (fun l => l ++ [CR; LF]) lines)
    with (flat_map (fun l => l ++ [CR] ++ [LF]) lines).
  change (flat_map (fun l => l ++ [LF]) lines)
    with (flat_map (fun l => l ++ [] ++ [LF]) lines).
  rewrite !scan_lines_text; try assumption;
    [|simpl; tauto|intros [H|[]]; discriminate H].
  cbn [fst snd itemCount trim trimStart trimEnd rev truthy].
  rewrite !app_nil_r, !length_map.
  replace (map (fun l => l ++ []) lines) with lines
    by (symmetry; rewrite <- (map_id lines) at 2; apply map_ext; intros; apply app_nil_r).
  destruct (for_of_CR lines 0 HCR) as (Hv & Hi). now repeat split.
Qed.

Lemma crlf_records_decode_like_lf_witness :
  let crlf := [BufferChunk [x31; x0d; x0a; x0d]; BufferChunk [x0a; x78; x0d; x0a]] in
  let lf := [StringChunk (lit "1" ++ [LF; LF] ++ lit "x" ++ [LF])] in
  values (snd (decode JSON.parse crlf)) = values (snd (decode JSON.parse lf))
  /\ map index (diagnostics (snd (decode JSON.parse crlf)))
     = map index (diagnostics (snd (decode JSON.parse lf)))
  /\ itemCount (fst (decode JSON.parse crlf)) = itemCount (fst (decode JSON.parse lf)).
Proof.
  refine (@crlf_records_decode_like_lf _ JSON.parse [lit "1"; []; lit "x"]
            [BufferChunk [x31; x0d; x0a; x0d]; BufferChunk [x0a; x78; x0d; x0a]]
            [StringChunk (lit "1" ++ [LF; LF] ++ lit "x" ++ [LF])]
            _ _ eq_refl eq_refl).
  - intros s. rewrite parse_CR. now destruct (JSON.parse s).
  - repeat constructor; vm_compute; intros H;
      repeat (destruct H as [H|H]; [discriminate H|]); exact H.
Defined.


